(** * PICHUKA (flappy): the simulation core of [src/script.js]

    A shallow embedding of the game script and the properties of its
    physics step, gate life cycle, collision test and session state
    machine.

    Modelling choices.
    - A JavaScript number is a rational [Q]: arithmetic is exact, there is
      no NaN, no infinity and no binary64 rounding.  Comparisons are the
      boolean functions of module [Js]; [!n] on a number is [Js.not].
    - The mutable object [state] is the record [State], field for field.
      The parts of the browser the script talks to (the elements it
      creates, the children of [#pipes], [localStorage], the pending
      animation-frame callbacks, the score board, the overlay and the
      bird's inline style) are the other fields of [World]; every function
      of the script is a function [World -> World].
    - What the script reads from the browser is an input: the layout
      ([Page]: bounding boxes, offset sizes, the [--ground-height]
      variable), the frame timestamp and the value of [Math.random()]. *)

From Stdlib Require Import QArith Qminmax Lqa ZArith Lia List Bool String
  Sorted.
Import ListNotations.
Open Scope Q_scope.

(** ** JavaScript numbers *)

Module Js.
(** [a < b], [a > b], [a <= b], [a >= b] *)
Definition lt (a b : Q) : bool := negb (Qle_bool b a).
Definition gt (a b : Q) : bool := negb (Qle_bool a b).
Definition le (a b : Q) : bool := Qle_bool a b.
Definition ge (a b : Q) : bool := Qle_bool b a.
(** [!a]: a number is falsy exactly when it is zero *)
Definition not (a : Q) : bool := Qeq_bool a 0.
End Js.

(** ** Data *)

(** [state.gameState]: "start" | "playing" | "gameover" *)
Inductive GameState : Type := start | playing | gameover.

(** A [DOMRect] as [getBoundingClientRect] returns it. *)
Module Rect.
Record t : Type := mk { left : Q; top : Q; right : Q; bottom : Q }.
Definition width (r : t) : Q := right r - left r.
Definition height (r : t) : Q := bottom r - top r.
End Rect.

(** The object [getSizes] returns. *)
Record Sizes : Type := mkSizes {
  gameWidth : Q;
  gameHeight : Q;
  groundHeight : Q;
  birdWidth : Q;
  birdHeight : Q
}.

(** A [div] made by [document.createElement]: its identity and the inline
    style the script writes ([styleTop] is set on bottom segments only).
    The fields hold the numbers the script assigns; a browser keeps an
    assigned width or height only when it is not negative. *)
Record Element : Type := mkElement {
  elId : nat;
  className : string;
  styleLeft : Q;
  styleWidth : Q;
  styleTop : option Q;
  styleHeight : Q
}.

(** An entry of [state.pipes]. *)
Module Pipe.
Record t : Type := mk {
  x : Q;
  topHeight : Q;
  bottomY : Q;
  passed : bool;
  topEl : Element;
  bottomEl : Element
}.
End Pipe.

(** The object [state] (lines 13-31). *)
Record State : Type := mkState {
  gameState : GameState;
  birdX : Q;
  birdY : Q;
  birdVelocity : Q;
  gravity : Q;
  jumpStrength : Q;
  pipeSpeed : Q;
  pipeWidth : Q;
  pipeGap : Q;
  pipeInterval : Q;
  minPipeHeight : Q;
  score : Q;
  highScore : Q;
  pipes : list Pipe.t;
  lastPipeTime : Q;
  lastFrameTime : Q;
  animationFrameId : option nat
}.

Definition initialState : State :=
  mkState start 90 0 0 0.45 (-8.5) 2.4 68 170 1550 70 0 0 [] 0 0 None.

(** The bird's inline style, written by [placeBird]. *)
Record BirdStyle : Type := mkBirdStyle {
  birdLeft : Q;
  birdTop : Q;
  birdAngle : Q
}.

(** The text of [#overlay] and whether it carries the class [hidden]. *)
Inductive OverlayText : Type :=
| emptyText
| startText
| gameOverText (finalScore finalHigh : Q).

Record Overlay : Type := mkOverlay {
  overlayText : OverlayText;
  overlayHidden : bool
}.

(** What [localStorage.getItem(STORAGE_KEY)] holds: nothing, a string that
    [Number] does not read as a finite number, or a finite number. *)
Inductive Stored : Type :=
| noItem
| notFinite
| storedNumber (q : Q).

Record World : Type := mkWorld {
  st : State;
  birdStyle : BirdStyle;
  scoreBoard : Q * Q;
  overlay : Overlay;
  created : nat;
  pipesContainer : list nat;
  storage : Stored;
  nextFrameId : nat;
  pendingFrames : list nat
}.

(** What the layout engine answers during one event: the box of [#game],
    the [--ground-height] variable, the bird's offset size, and the
    bounding box it gives the bird and a pipe segment for their inline
    style. *)
Record Page : Type := mkPage {
  gameRect : Rect.t;
  groundHeightVar : Q;
  birdOffsetWidth : Q;
  birdOffsetHeight : Q;
  birdClientRect : BirdStyle -> Rect.t;
  elementClientRect : Element -> Rect.t
}.

(** ** Field updates *)

Definition set_gameState (v : GameState) (s : State) : State :=
  mkState v (birdX s) (birdY s) (birdVelocity s) (gravity s)
    (jumpStrength s) (pipeSpeed s) (pipeWidth s) (pipeGap s)
    (pipeInterval s) (minPipeHeight s) (score s) (highScore s) (pipes s)
    (lastPipeTime s) (lastFrameTime s) (animationFrameId s).

Definition set_birdY (v : Q) (s : State) : State :=
  mkState (gameState s) (birdX s) v (birdVelocity s) (gravity s)
    (jumpStrength s) (pipeSpeed s) (pipeWidth s) (pipeGap s)
    (pipeInterval s) (minPipeHeight s) (score s) (highScore s) (pipes s)
    (lastPipeTime s) (lastFrameTime s) (animationFrameId s).

Definition set_birdVelocity (v : Q) (s : State) : State :=
  mkState (gameState s) (birdX s) (birdY s) v (gravity s)
    (jumpStrength s) (pipeSpeed s) (pipeWidth s) (pipeGap s)
    (pipeInterval s) (minPipeHeight s) (score s) (highScore s) (pipes s)
    (lastPipeTime s) (lastFrameTime s) (animationFrameId s).

Definition set_score (v : Q) (s : State) : State :=
  mkState (gameState s) (birdX s) (birdY s) (birdVelocity s) (gravity s)
    (jumpStrength s) (pipeSpeed s) (pipeWidth s) (pipeGap s)
    (pipeInterval s) (minPipeHeight s) v (highScore s) (pipes s)
    (lastPipeTime s) (lastFrameTime s) (animationFrameId s).

Definition set_highScore (v : Q) (s : State) : State :=
  mkState (gameState s) (birdX s) (birdY s) (birdVelocity s) (gravity s)
    (jumpStrength s) (pipeSpeed s) (pipeWidth s) (pipeGap s)
    (pipeInterval s) (minPipeHeight s) (score s) v (pipes s)
    (lastPipeTime s) (lastFrameTime s) (animationFrameId s).

Definition set_pipes (v : list Pipe.t) (s : State) : State :=
  mkState (gameState s) (birdX s) (birdY s) (birdVelocity s) (gravity s)
    (jumpStrength s) (pipeSpeed s) (pipeWidth s) (pipeGap s)
    (pipeInterval s) (minPipeHeight s) (score s) (highScore s) v
    (lastPipeTime s) (lastFrameTime s) (animationFrameId s).

Definition set_lastPipeTime (v : Q) (s : State) : State :=
  mkState (gameState s) (birdX s) (birdY s) (birdVelocity s) (gravity s)
    (jumpStrength s) (pipeSpeed s) (pipeWidth s) (pipeGap s)
    (pipeInterval s) (minPipeHeight s) (score s) (highScore s) (pipes s)
    v (lastFrameTime s) (animationFrameId s).

Definition set_lastFrameTime (v : Q) (s : State) : State :=
  mkState (gameState s) (birdX s) (birdY s) (birdVelocity s) (gravity s)
    (jumpStrength s) (pipeSpeed s) (pipeWidth s) (pipeGap s)
    (pipeInterval s) (minPipeHeight s) (score s) (highScore s) (pipes s)
    (lastPipeTime s) v (animationFrameId s).

Definition set_animationFrameId (v : option nat) (s : State) : State :=
  mkState (gameState s) (birdX s) (birdY s) (birdVelocity s) (gravity s)
    (jumpStrength s) (pipeSpeed s) (pipeWidth s) (pipeGap s)
    (pipeInterval s) (minPipeHeight s) (score s) (highScore s) (pipes s)
    (lastPipeTime s) (lastFrameTime s) v.

Definition with_st (v : State) (w : World) : World :=
  mkWorld v (birdStyle w) (scoreBoard w) (overlay w) (created w)
    (pipesContainer w) (storage w) (nextFrameId w) (pendingFrames w).

Definition with_birdStyle (v : BirdStyle) (w : World) : World :=
  mkWorld (st w) v (scoreBoard w) (overlay w) (created w)
    (pipesContainer w) (storage w) (nextFrameId w) (pendingFrames w).

Definition with_scoreBoard (v : Q * Q) (w : World) : World :=
  mkWorld (st w) (birdStyle w) v (overlay w) (created w)
    (pipesContainer w) (storage w) (nextFrameId w) (pendingFrames w).

Definition with_overlay (v : Overlay) (w : World) : World :=
  mkWorld (st w) (birdStyle w) (scoreBoard w) v (created w)
    (pipesContainer w) (storage w) (nextFrameId w) (pendingFrames w).

Definition with_created (v : nat) (w : World) : World :=
  mkWorld (st w) (birdStyle w) (scoreBoard w) (overlay w) v
    (pipesContainer w) (storage w) (nextFrameId w) (pendingFrames w).

Definition with_pipesContainer (v : list nat) (w : World) : World :=
  mkWorld (st w) (birdStyle w) (scoreBoard w) (overlay w) (created w) v
    (storage w) (nextFrameId w) (pendingFrames w).

Definition with_storage (v : Stored) (w : World) : World :=
  mkWorld (st w) (birdStyle w) (scoreBoard w) (overlay w) (created w)
    (pipesContainer w) v (nextFrameId w) (pendingFrames w).

Definition with_nextFrameId (v : nat) (w : World) : World :=
  mkWorld (st w) (birdStyle w) (scoreBoard w) (overlay w) (created w)
    (pipesContainer w) (storage w) v (pendingFrames w).

Definition with_pendingFrames (v : list nat) (w : World) : World :=
  mkWorld (st w) (birdStyle w) (scoreBoard w) (overlay w) (created w)
    (pipesContainer w) (storage w) (nextFrameId w) v.

Definition onState (f : State -> State) (w : World) : World :=
  with_st (f (st w)) w.

(** ** The script's functions *)

(** [getSizes] (lines 33-42) *)
Definition getSizes (page : Page) : Sizes :=
  mkSizes (Rect.width (gameRect page)) (Rect.height (gameRect page))
    (groundHeightVar page) (birdOffsetWidth page) (birdOffsetHeight page).

(** [loadHighScore] (lines 44-47): [Number(null)] is 0, an unreadable
    string gives NaN, which [Number.isFinite] rejects. *)
Definition loadHighScore (w : World) : World :=
  let h := match storage w with
           | storedNumber saved => if Js.gt saved 0 then saved else 0
           | noItem | notFinite => 0
           end in
  onState (set_highScore h) w.

(** [saveHighScore] (lines 49-51) *)
Definition saveHighScore (w : World) : World :=
  with_storage (storedNumber (highScore (st w))) w.

(** [updateScoreBoard] (lines 53-55) *)
Definition updateScoreBoard (w : World) : World :=
  with_scoreBoard (score (st w), highScore (st w)) w.

(** [setOverlay] (lines 57-60) *)
Definition setOverlay (message : OverlayText) (visible : bool) (w : World)
  : World :=
  with_overlay (mkOverlay message (negb visible)) w.

(** [placeBird] (lines 62-67) *)
Definition placeBird (w : World) : World :=
  let angle := Qmax (-25) (Qmin 70 (birdVelocity (st w) * 4)) in
  with_birdStyle (mkBirdStyle (birdX (st w)) (birdY (st w)) angle) w.

(** [el.remove()] for a child of [#pipes] *)
Definition removeEl (el : Element) (w : World) : World :=
  with_pipesContainer
    (filter (fun i => negb (Nat.eqb i (elId el))) (pipesContainer w)) w.

(** [clearPipes] (lines 69-75) *)
Definition clearPipes (w : World) : World :=
  let w1 :=
    fold_left (fun acc pipe => removeEl (Pipe.bottomEl pipe)
                                 (removeEl (Pipe.topEl pipe) acc))
              (pipes (st w)) w in
  onState (set_pipes []) w1.

(** [resetBird] (lines 77-82) *)
Definition resetBird (page : Page) (w : World) : World :=
  let sz := getSizes page in
  let w1 := onState (set_birdY
              ((gameHeight sz - groundHeight sz - birdHeight sz) / 2)) w in
  let w2 := onState (set_birdVelocity 0) w1 in
  placeBird w2.

(** [resetGameState] (lines 84-91) *)
Definition resetGameState (page : Page) (w : World) : World :=
  let w1 := onState (set_score 0) w in
  let w2 := onState (set_lastPipeTime 0) w1 in
  let w3 := onState (set_lastFrameTime 0) w2 in
  updateScoreBoard (resetBird page (clearPipes w3)).

(** The constants [createPipe] computes before it touches the document
    (lines 94-100). *)
Record PipeGeometry : Type := mkPipeGeometry {
  geoAvailableHeight : Q;
  geoMaxTopHeight : Q;
  geoTopHeight : Q;
  geoBottomY : Q;
  geoBottomHeight : Q
}.

Definition pipeGeometry (rnd : Q) (sz : Sizes) (s : State) : PipeGeometry :=
  let availableHeight := gameHeight sz - groundHeight sz in
  let maxTopHeight := availableHeight - pipeGap s - minPipeHeight s in
  let topHeight :=
    rnd * (maxTopHeight - minPipeHeight s) + minPipeHeight s in
  let bottomY := topHeight + pipeGap s in
  let bottomHeight := availableHeight - bottomY in
  mkPipeGeometry availableHeight maxTopHeight topHeight bottomY bottomHeight.

(** [createPipe] (lines 93-128); [rnd] is what [Math.random()] returns. *)
Definition createPipe (now rnd : Q) (page : Page) (w : World) : World :=
  let sz := getSizes page in
  let s := st w in
  let g := pipeGeometry rnd sz s in
  let topEl := mkElement (created w) "pipe pipe-top"
                 (gameWidth sz) (pipeWidth s) None (geoTopHeight g) in
  let bottomEl := mkElement (S (created w)) "pipe pipe-bottom"
                    (gameWidth sz) (pipeWidth s) (Some (geoBottomY g))
                    (geoBottomHeight g) in
  let w1 := with_created (S (S (created w))) w in
  let w2 := with_pipesContainer
              (pipesContainer w1 ++ [elId topEl; elId bottomEl]) w1 in
  let pipe := Pipe.mk (gameWidth sz) (geoTopHeight g) (geoBottomY g) false
                topEl bottomEl in
  let w3 := onState (set_pipes (pipes s ++ [pipe])) w2 in
  onState (set_lastPipeTime now) w3.

(** [el.style.left = ...] *)
Definition setLeft (v : Q) (el : Element) : Element :=
  mkElement (elId el) (className el) v (styleWidth el) (styleTop el)
    (styleHeight el).

(** The body of the [forEach] callback of [updatePipes] (lines 136-148):
    the pipe as the callback leaves it, and the world. *)
Definition advancePipe (moveBy birdFront : Q) (pipe : Pipe.t) (w : World)
  : Pipe.t * World :=
  let x' := Pipe.x pipe - moveBy in
  let moved := Pipe.mk x' (Pipe.topHeight pipe) (Pipe.bottomY pipe)
                 (Pipe.passed pipe) (setLeft x' (Pipe.topEl pipe))
                 (setLeft x' (Pipe.bottomEl pipe)) in
  if negb (Pipe.passed moved)
     && Js.gt birdFront (Pipe.x moved + pipeWidth (st w))
  then
    let scored := Pipe.mk (Pipe.x moved) (Pipe.topHeight moved)
                    (Pipe.bottomY moved) true (Pipe.topEl moved)
                    (Pipe.bottomEl moved) in
    let w1 := onState (set_score (score (st w) + 1)) w in
    let w2 := if Js.gt (score (st w1)) (highScore (st w1))
              then saveHighScore
                     (onState (set_highScore (score (st w1))) w1)
              else w1 in
    (scored, updateScoreBoard w2)
  else (moved, w).

(** [state.pipes.forEach(...)] (lines 135-149), in array order. *)
Fixpoint forEachPipe (moveBy birdFront : Q) (ps : list Pipe.t) (w : World)
  : list Pipe.t * World :=
  match ps with
  | [] => ([], w)
  | pipe :: rest =>
      let '(pipe', w1) := advancePipe moveBy birdFront pipe w in
      let '(rest', w2) := forEachPipe moveBy birdFront rest w1 in
      (pipe' :: rest', w2)
  end.

(** The test of the [filter] callback (line 152). *)
Definition visible (s : State) (pipe : Pipe.t) : bool :=
  Js.gt (Pipe.x pipe + pipeWidth s) (-10).

(** [state.pipes = state.pipes.filter(...)] (lines 151-158): the pipes
    kept, and the world with the elements of the others removed. *)
Fixpoint evictPipes (ps : list Pipe.t) (w : World) : list Pipe.t * World :=
  match ps with
  | [] => ([], w)
  | pipe :: rest =>
      if visible (st w) pipe then
        let '(kept, w1) := evictPipes rest w in (pipe :: kept, w1)
      else
        evictPipes rest
          (removeEl (Pipe.bottomEl pipe) (removeEl (Pipe.topEl pipe) w))
  end.

(** [updatePipes] (lines 130-159) *)
Definition updatePipes (deltaSec : Q) (page : Page) (w : World) : World :=
  let moveBy := pipeSpeed (st w) * 60 * deltaSec in
  let birdFront := birdX (st w) + birdWidth (getSizes page) in
  let '(ps, w1) := forEachPipe moveBy birdFront (pipes (st w)) w in
  let w2 := onState (set_pipes ps) w1 in
  let '(kept, w3) := evictPipes (pipes (st w2)) w2 in
  onState (set_pipes kept) w3.

(** [intersects] (lines 161-168) *)
Definition intersects (a b : Rect.t) : bool :=
  Js.lt (Rect.left a) (Rect.right b)
  && Js.gt (Rect.right a) (Rect.left b)
  && Js.lt (Rect.top a) (Rect.bottom b)
  && Js.gt (Rect.bottom a) (Rect.top b).

(** The [for ... of] loop of [hasCollision] (lines 186-193). *)
Fixpoint hitsPipe (page : Page) (birdRect : Rect.t) (ps : list Pipe.t)
  : bool :=
  match ps with
  | [] => false
  | pipe :: rest =>
      if intersects birdRect (elementClientRect page (Pipe.topEl pipe))
      then true
      else if intersects birdRect
                (elementClientRect page (Pipe.bottomEl pipe))
      then true
      else hitsPipe page birdRect rest
  end.

(** [hasCollision] (lines 170-196) *)
Definition hasCollision (page : Page) (w : World) : bool :=
  let sz := getSizes page in
  let birdRect := birdClientRect page (birdStyle w) in
  let birdTop := Rect.top birdRect - Rect.top (gameRect page) in
  let birdBottom := Rect.bottom birdRect - Rect.top (gameRect page) in
  if Js.le birdTop 0 then true
  else if Js.ge birdBottom (gameHeight sz - groundHeight sz) then true
  else hitsPipe page birdRect (pipes (st w)).

(** [cancelAnimationFrame] and [requestAnimationFrame(gameLoop)] *)
Definition cancelAnimationFrame (id : option nat) (w : World) : World :=
  match id with
  | Some n =>
      with_pendingFrames
        (filter (fun i => negb (Nat.eqb i n)) (pendingFrames w)) w
  | None => w
  end.

Definition requestAnimationFrame (w : World) : World :=
  let id := nextFrameId w in
  let w1 := with_nextFrameId (S id) w in
  let w2 := with_pendingFrames (pendingFrames w1 ++ [id]) w1 in
  onState (set_animationFrameId (Some id)) w2.

(** [endGame] (lines 198-205) *)
Definition endGame (w : World) : World :=
  let w1 := onState (set_gameState gameover) w in
  let w2 := cancelAnimationFrame (animationFrameId (st w1)) w1 in
  setOverlay (gameOverText (score (st w2)) (highScore (st w2))) true w2.

(** The step [gameLoop] integrates with (line 216), read after line 214. *)
Definition deltaSecOf (now : Q) (s : State) : Q :=
  Qmin ((now - lastFrameTime s) / 1000) 0.05.

(** The test that guards [createPipe] (line 223). *)
Definition spawnDue (now : Q) (s : State) : bool :=
  Js.not (lastPipeTime s)
  || Js.ge (now - lastPipeTime s) (pipeInterval s).

(** [gameLoop] (lines 207-235) *)
Definition gameLoop (now rnd : Q) (page : Page) (w : World) : World :=
  match gameState (st w) with
  | playing =>
      let w1 := if Js.not (lastFrameTime (st w))
                then onState (set_lastFrameTime now) w else w in
      let deltaSec := deltaSecOf now (st w1) in
      let w2 := onState (set_lastFrameTime now) w1 in
      let w3 := onState (fun s => set_birdVelocity
                  (birdVelocity s + gravity s * 60 * deltaSec) s) w2 in
      let w4 := onState (fun s => set_birdY
                  (birdY s + birdVelocity s * 60 * deltaSec) s) w3 in
      let w5 := placeBird w4 in
      let w6 := if spawnDue now (st w5)
                then createPipe now rnd page w5 else w5 in
      let w7 := updatePipes deltaSec page w6 in
      if hasCollision page w7 then endGame w7
      else requestAnimationFrame w7
  | start | gameover => w
  end.

(** [startPlaying] (lines 237-250) *)
Definition startPlaying (page : Page) (w : World) : World :=
  match gameState (st w) with
  | playing => onState (fun s => set_birdVelocity (jumpStrength s) s) w
  | start | gameover =>
      let w1 := resetGameState page w in
      let w2 := onState (set_gameState playing) w1 in
      let w3 := setOverlay emptyText false w2 in
      let w4 := onState (fun s => set_birdVelocity (jumpStrength s) s) w3 in
      requestAnimationFrame w4
  end.

(** The events [handleInput] is registered for (lines 269-271). *)
Inductive InputEvent : Type :=
| keydown (code : string)
| mousedown
| touchstart.

(** [handleInput] (lines 252-261) *)
Definition handleInput (event : InputEvent) (page : Page) (w : World)
  : World :=
  match event with
  | keydown code =>
      if String.eqb code "Space" then startPlaying page w else w
  | mousedown | touchstart => startPlaying page w
  end.

(** The [resize] listener (lines 273-277). *)
Definition onResize (page : Page) (w : World) : World :=
  match gameState (st w) with
  | playing => w
  | start | gameover => resetBird page w
  end.

(** [init] (lines 263-278), run once on the world the page loads with. *)
Definition init (page : Page) (w : World) : World :=
  let w1 := loadHighScore w in
  let w2 := resetGameState page w1 in
  let w3 := setOverlay startText true w2 in
  updateScoreBoard w3.

(** The world before [init]: the literal [state], an empty [#pipes], and
    whatever the browser kept in [localStorage]. *)
Definition loadedWorld (stored : Stored) : World :=
  mkWorld initialState (mkBirdStyle 0 0 0) (0, 0) (mkOverlay emptyText false)
    0 [] stored 0 [].

(** ** The browser's event loop *)

(** An event and what the script reads while handling it. *)
Inductive Event : Type :=
| Input (event : InputEvent) (page : Page)
| AnimationFrame (now rnd : Q) (page : Page)
| Resize (page : Page).

(** A frame callback runs only if one is pending; the browser takes it off
    its list before calling it. *)
Definition step (e : Event) (w : World) : World :=
  match e with
  | Input event page => handleInput event page w
  | AnimationFrame now rnd page =>
      match pendingFrames w with
      | [] => w
      | _ :: later => gameLoop now rnd page (with_pendingFrames later w)
      end
  | Resize page => onResize page w
  end.

Definition run (es : list Event) (w : World) : World :=
  fold_left (fun acc e => step e acc) es w.

(** * Vocabulary of the properties *)

(** ** The phases of a frame *)

(** The step [gameLoop] uses on [w]: line 216 evaluated after lines
    212-214. *)
Definition frameStep (now : Q) (w : World) : Q :=
  deltaSecOf now
    (if Js.not (lastFrameTime (st w))
     then set_lastFrameTime now (st w) else st w).

(** The world after the physics lines of [gameLoop] (212-221), for a
    session in play. *)
Definition afterPhysics (now : Q) (w : World) : World :=
  let deltaSec := frameStep now w in
  let v := birdVelocity (st w) + gravity (st w) * 60 * deltaSec in
  placeBird
    (onState (fun s => set_birdY (birdY s + v * 60 * deltaSec)
                         (set_birdVelocity v (set_lastFrameTime now s))) w).

(** The world after the spawn and the pipe pass (lines 223-227). *)
Definition afterPipes (now rnd : Q) (page : Page) (w : World) : World :=
  let w5 := afterPhysics now w in
  updatePipes (frameStep now w) page
    (if spawnDue now (st w5) then createPipe now rnd page w5 else w5).

(** The world [updatePipes] is called on (line 227): after the physics
    lines and the spawn of lines 223-225. *)
Definition afterSpawn (now rnd : Q) (page : Page) (w : World) : World :=
  let w5 := afterPhysics now w in
  if spawnDue now (st w5) then createPipe now rnd page w5 else w5.

(** The pipes as the [forEach] of [updatePipes] leaves them, before the
    filter runs. *)
Definition advancedPipes (deltaSec : Q) (page : Page) (w : World)
  : list Pipe.t :=
  fst (forEachPipe (pipeSpeed (st w) * 60 * deltaSec)
         (birdX (st w) + birdWidth (getSizes page)) (pipes (st w)) w).

(** The gate [createPipe] appends. *)
Definition newPipe (rnd : Q) (page : Page) (w : World) : Pipe.t :=
  last (pipes (st (createPipe 0 rnd page w)))
    (Pipe.mk 0 0 0 false (mkElement 0 "" 0 0 None 0)
       (mkElement 0 "" 0 0 None 0)).

(** ** What a phase leaves alone *)

(** [s'] is [s] up to the two counters. *)
Definition sameButScores (s s' : State) : Prop :=
  s' = set_highScore (highScore s') (set_score (score s') s).

(** The fields that only the physics lines (212-220) and the reset
    write. *)
Definition kinematics (s : State) : Q * Q * Q * Q :=
  (birdX s, birdY s, birdVelocity s, lastFrameTime s).

(** The tuning constants of [state], which nothing writes. *)
Definition tuning (s : State) : Q * Q * Q * Q * Q * Q * Q :=
  (gravity s, jumpStrength s, pipeSpeed s, pipeWidth s, pipeGap s,
   pipeInterval s, minPipeHeight s).

(** ** Eviction and collision *)

(** The trailing edge of a gate, as line 152 computes it. *)
Definition trailingEdge (s : State) (pipe : Pipe.t) : Q :=
  Pipe.x pipe + pipeWidth s.

(** Open-interval overlap of two boxes on both axes. *)
Definition overlaps (a b : Rect.t) : Prop :=
  Rect.left a < Rect.right b /\ Rect.left b < Rect.right a
  /\ Rect.top a < Rect.bottom b /\ Rect.top b < Rect.bottom a.

(** Two boxes that share an edge coordinate: one ends where the other
    begins. *)
Definition touches (a b : Rect.t) : Prop :=
  Rect.right a == Rect.left b \/ Rect.right b == Rect.left a
  \/ Rect.bottom a == Rect.top b \/ Rect.bottom b == Rect.top a.

(** ** Scoring *)

(** The test of line 140 for a pipe, evaluated on its advanced position:
    the pipe is not yet flagged and the bird's front is past its trailing
    edge. *)
Definition passesNow (moveBy birdFront : Q) (s : State) (pipe : Pipe.t)
  : bool :=
  negb (Pipe.passed pipe)
  && Js.gt birdFront (Pipe.x pipe - moveBy + pipeWidth s).

(** The counters as a session keeps them: the score is between 0 and the
    high score. *)
Definition countersOk (s : State) : Prop :=
  0 <= score s /\ score s <= highScore s.

(** The number of gates of a list that are not flagged yet. *)
Fixpoint unscored (ps : list Pipe.t) : Q :=
  match ps with
  | [] => 0
  | pipe :: rest => (if Pipe.passed pipe then 0 else 1) + unscored rest
  end.

(** Any number of [updatePipes] calls, each with its own step and
    layout. *)
Definition evaluateMany (frames : list (Q * Page)) (w : World) : World :=
  fold_left (fun acc frame => updatePipes (fst frame) (snd frame) acc)
    frames w.

(** [pipe'] is the gate [pipe] later on: the same elements, and the flag
    still set if it was. *)
Definition laterGate (pipe pipe' : Pipe.t) : Prop :=
  elId (Pipe.topEl pipe') = elId (Pipe.topEl pipe)
  /\ elId (Pipe.bottomEl pipe') = elId (Pipe.bottomEl pipe)
  /\ (Pipe.passed pipe = true -> Pipe.passed pipe' = true).

(** ** The order and the identity of gates *)

(** The identities of the gates in play, oldest first. *)
Definition gateIds (w : World) : list nat :=
  map (fun pipe => elId (Pipe.topEl pipe)) (pipes (st w)).

(** Every gate in play is made of elements the document has created. *)
Definition gatesCreated (w : World) : Prop :=
  Forall (fun id => (id < created w)%nat) (gateIds w).

(** Positions non-decreasing in insertion order: every gate is at or left
    of the gates created after it. *)
Definition oldestLeftmost (ps : list Pipe.t) : Prop :=
  StronglySorted (fun older newer => Pipe.x older <= Pipe.x newer) ps.

(** Positions non-increasing in insertion order. *)
Definition oldestRightmost (ps : list Pipe.t) : Prop :=
  StronglySorted (fun older newer => Pipe.x newer <= Pipe.x older) ps.

(** The order the gates are kept in on a field of width [W]: oldest
    leftmost, none right of the field's edge, and a speed that moves them
    left. *)
Definition gatesInOrder (W : Q) (s : State) : Prop :=
  oldestLeftmost (pipes s)
  /\ Forall (fun pipe => Pipe.x pipe <= W) (pipes s)
  /\ 0 <= pipeSpeed s.

(** What the order asks of an event: a frame sees the field at width [W]
    and its time stamp is not before the last one. *)
Definition steadyEvent (W : Q) (e : Event) (w : World) : Prop :=
  match e with
  | AnimationFrame now _ page =>
      gameWidth (getSizes page) == W /\ lastFrameTime (st w) <= now
  | Input _ _ | Resize _ => True
  end.

Fixpoint steadyRun (W : Q) (es : list Event) (w : World) : Prop :=
  match es with
  | [] => True
  | e :: rest => steadyEvent W e w /\ steadyRun W rest (step e w)
  end.

(** ** The page around the simulation *)

(** [w'] is [w] up to what a scoring pass writes: the two counters, the
    score board and the stored high score. *)
Definition sameButTally (w w' : World) : Prop :=
  w' = with_storage (storage w')
         (with_scoreBoard (scoreBoard w') (with_st (st w') w))
  /\ sameButScores (st w) (st w').

(** What neither the spawn nor the pipe pass writes. *)
Definition surroundings (w : World)
  : BirdStyle * Overlay * nat * list nat :=
  (birdStyle w, overlay w, nextFrameId w, pendingFrames w).

(** The bird is drawn where the simulation has it, and its rotation is
    within the limits of line 65. *)
Definition birdDrawn (w : World) : Prop :=
  birdLeft (birdStyle w) = birdX (st w)
  /\ birdTop (birdStyle w) = birdY (st w)
  /\ -25 <= birdAngle (birdStyle w) /\ birdAngle (birdStyle w) <= 70.

(** The score board shows the two counters. *)
Definition boardShown (w : World) : Prop :=
  scoreBoard w = (score (st w), highScore (st w)).

(** The overlay says what the session state is: the start message before
    the first session, nothing (and hidden) in play, the final counters
    after a crash. *)
Definition overlayShown (w : World) : Prop :=
  match gameState (st w) with
  | start => overlay w = mkOverlay startText false
  | playing => overlay w = mkOverlay emptyText true
  | gameover =>
      overlay w
      = mkOverlay (gameOverText (score (st w)) (highScore (st w))) false
  end.

(** One frame callback is pending in play, the one [animationFrameId]
    names, and none otherwise. *)
Definition scheduled (w : World) : Prop :=
  match gameState (st w) with
  | playing =>
      exists id,
        pendingFrames w = [id] /\ animationFrameId (st w) = Some id
  | start | gameover => pendingFrames w = []
  end.

(** The high score a page load would read back from the storage. *)
Definition reloadedHighScore (w : World) : Q :=
  highScore (st (loadHighScore w)).

(** The elements of the gates [ps], in document order. *)
Definition gateElements (ps : list Pipe.t) : list nat :=
  flat_map (fun pipe => [elId (Pipe.topEl pipe);
                         elId (Pipe.bottomEl pipe)]) ps.

(** The children of [#pipes] are the elements of the gates in play, each
    once, and all of them elements the document has created. *)
Definition documentTidy (w : World) : Prop :=
  pipesContainer w = gateElements (pipes (st w))
  /\ NoDup (gateElements (pipes (st w)))
  /\ Forall (fun id => (id < created w)%nat)
       (gateElements (pipes (st w))).

(** A gate is drawn as the simulation has it: both segments at its
    position and [width] wide, the bottom one starting at [bottomY],
    which is [gap] below the top segment, and the top one [topHeight]
    high when [topHeight] is not negative.  (A negative number is no CSS
    height: a browser keeps no inline height for it, so nothing is said
    of the height then.) *)
Definition gateDrawn (gap width : Q) (pipe : Pipe.t) : Prop :=
  styleLeft (Pipe.topEl pipe) = Pipe.x pipe
  /\ styleLeft (Pipe.bottomEl pipe) = Pipe.x pipe
  /\ styleWidth (Pipe.topEl pipe) = width
  /\ styleWidth (Pipe.bottomEl pipe) = width
  /\ (0 <= Pipe.topHeight pipe ->
      styleHeight (Pipe.topEl pipe) = Pipe.topHeight pipe)
  /\ styleTop (Pipe.bottomEl pipe) = Some (Pipe.bottomY pipe)
  /\ Pipe.bottomY pipe = Pipe.topHeight pipe + gap.

Definition gatesDrawn (w : World) : Prop :=
  Forall (gateDrawn (pipeGap (st w)) (pipeWidth (st w))) (pipes (st w)).

(** The score is a whole number. *)
Definition wholeScore (w : World) : Prop :=
  exists n : nat, score (st w) == inject_Z (Z.of_nat n).

(** A world the page can be in: [init] on what the browser loaded, then
    any events. *)
Definition reached (page : Page) (stored : Stored) (es : list Event)
  : World :=
  run es (init page (loadedWorld stored)).

(** * Worlds for worked examples

    ** A page

    The field sits at the page's origin, every box is the element's inline
    style, and the bird's rotation is left out of its box. *)
Definition plainPage (width height ground birdW birdH : Q) : Page :=
  mkPage (Rect.mk 0 0 width height) ground birdW birdH
    (fun b => Rect.mk (birdLeft b) (birdTop b)
                (birdLeft b + birdW) (birdTop b + birdH))
    (fun el =>
       let t := match styleTop el with Some t => t | None => 0 end in
       Rect.mk (styleLeft el) t (styleLeft el + styleWidth el)
         (t + styleHeight el)).

(** The scenario of the specification: a 400 x 500 field, a 50 px ground
    strip and a 34 x 28 bird. *)
Definition demoPage : Page := plainPage 400 500 50 34 28.

Definition demoWorld : World := init demoPage (loadedWorld noItem).

(** A gate of [demoWorld]'s geometry at horizontal position [x], with the
    elements [2 * n] and [2 * n + 1]. *)
Definition gateAt (x : Q) (isPassed : bool) (n : nat) : Pipe.t :=
  Pipe.mk x 140 310 isPassed
    (mkElement (2 * n) "pipe pipe-top" x 68 None 140)
    (mkElement (2 * n + 1) "pipe pipe-bottom" x 68 (Some 310) 140).

(** A session of [demoWorld] in play that holds the gates [ps]. *)
Definition playingWith (ps : list Pipe.t) : World :=
  let w := startPlaying demoPage demoWorld in
  let ids := flat_map (fun p => [elId (Pipe.topEl p);
                                 elId (Pipe.bottomEl p)]) ps in
  with_created (2 * List.length ps)
    (with_pipesContainer ids (onState (set_pipes ps) w)).


(** A session of [demoWorld]: a click, then frames at 1000, 1050 and
    2600 ms.  The first frame creates a gate, the third the next one. *)
Definition twoGateRun : World :=
  run [Input mousedown demoPage;
       AnimationFrame 1000 0.5 demoPage;
       AnimationFrame 1050 0.5 demoPage;
       AnimationFrame 2600 0.5 demoPage] demoWorld.

(** [n] frames 50 ms apart, the first stamped [now]. *)
Fixpoint framesFrom (n : nat) (now : Q) (page : Page) : list Event :=
  match n with
  | O => []
  | S k => AnimationFrame now 0.5 page :: framesFrom k (now + 50) page
  end.

(** [demoPage] after the window has been narrowed to 120 px. *)
Definition narrowPage : Page := plainPage 120 500 50 34 28.

(** A session of [demoWorld] during which the window is narrowed: a click,
    31 frames from 1000 ms on the 400 px field (the first creates a gate
    at x = 400), the resize, then 27 frames on the 120 px field (the
    first, at 2550 ms, creates a gate at x = 120); clicks before the
    frames at 1650, 2250, 2850 and 3400 ms keep the bird in the gap. *)
Definition resizedRun : World :=
  run ([Input mousedown demoPage]
       ++ framesFrom 13 1000 demoPage
       ++ [Input mousedown demoPage] ++ framesFrom 12 1650 demoPage
       ++ [Input mousedown demoPage] ++ framesFrom 6 2250 demoPage
       ++ [Resize narrowPage] ++ framesFrom 6 2550 narrowPage
       ++ [Input mousedown narrowPage] ++ framesFrom 11 2850 narrowPage
       ++ [Input mousedown narrowPage] ++ framesFrom 10 3400 narrowPage)
    demoWorld.

(** * Properties *)

(** ** Comparisons *)

Section Comparisons.
Variables a b : Q.

Lemma gt_true : Js.gt a b = true <-> b < a.
Proof.
  unfold Js.gt. rewrite negb_true_iff.
  split; intro H.
  - apply Qnot_le_lt. intro Hle.
    apply Qle_bool_iff in Hle. congruence.
  - destruct (Qle_bool a b) eqn:E; [|reflexivity].
    apply Qle_bool_iff in E. lra.
Qed.

Lemma gt_false : Js.gt a b = false <-> a <= b.
Proof.
  unfold Js.gt. rewrite negb_false_iff. apply Qle_bool_iff.
Qed.

Lemma le_true : Js.le a b = true <-> a <= b.
Proof. apply Qle_bool_iff. Qed.

Lemma not_true : Js.not a = true <-> a == 0.
Proof. apply Qeq_bool_iff. Qed.
End Comparisons.

Lemma lt_true (a b : Q) : Js.lt a b = true <-> a < b.
Proof. apply (gt_true b a). Qed.

Lemma lt_false (a b : Q) : Js.lt a b = false <-> b <= a.
Proof. apply (gt_false b a). Qed.

Lemma ge_true (a b : Q) : Js.ge a b = true <-> b <= a.
Proof. apply (le_true b a). Qed.

Lemma le_false (a b : Q) : Js.le a b = false <-> b < a.
Proof.
  unfold Js.le. rewrite <- (negb_true_iff (Qle_bool a b)).
  apply (gt_true a b).
Qed.

Lemma ge_false (a b : Q) : Js.ge a b = false <-> a < b.
Proof. apply (le_false b a). Qed.

Lemma not_false (a : Q) : Js.not a = false <-> ~ a == 0.
Proof.
  rewrite <- not_true.
  destruct (Js.not a); split; intro H; congruence.
Qed.

(** ** What a pass over the pipes leaves alone *)

Lemma sameButScores_refl (s : State) : sameButScores s s.
Proof. destruct s; reflexivity. Qed.

Lemma sameButScores_trans (s1 s2 s3 : State) :
  sameButScores s1 s2 -> sameButScores s2 s3 -> sameButScores s1 s3.
Proof.
  unfold sameButScores. intros H12 H23.
  rewrite H23 at 1. rewrite H12 at 1. reflexivity.
Qed.

Lemma sameButScores_pipeWidth (s s' : State) :
  sameButScores s s' -> pipeWidth s' = pipeWidth s.
Proof. intros H. rewrite H. reflexivity. Qed.

Lemma advancePipe_st (moveBy birdFront : Q) (pipe : Pipe.t) (w : World) :
  sameButScores (st w) (st (snd (advancePipe moveBy birdFront pipe w))).
Proof.
  unfold advancePipe.
  destruct (negb _ && _); cbn [snd]; [|apply sameButScores_refl].
  destruct (Js.gt _ _); destruct w as [s ? ? ? ? ? ? ? ?]; destruct s;
    reflexivity.
Qed.

(** One step of an induction over the [forEach]: name the result of the
    callback on the head ([pipe'], [w1]) with the fact [H] about it,
    and the result of the loop on the tail ([rest'], [w2]) with the
    induction hypothesis. *)
Ltac forEach_cons H IH :=
  match goal with
  | |- context [advancePipe ?m ?b ?p ?w] =>
      pose proof (H m b p w) as Hhd;
      cbv zeta in Hhd;
      destruct (advancePipe m b p w) as [pipe' w1];
      specialize (IH w1);
      cbv zeta in IH;
      destruct (forEachPipe m b _ w1) as [rest' w2];
      cbn [fst snd] in *
  end.

Lemma forEachPipe_st (moveBy birdFront : Q) (ps : list Pipe.t) :
  forall w,
    sameButScores (st w) (st (snd (forEachPipe moveBy birdFront ps w))).
Proof.
  induction ps as [|pipe rest IH]; intros w; cbn [forEachPipe].
  - apply sameButScores_refl.
  - forEach_cons advancePipe_st IH.
    eapply sameButScores_trans; eassumption.
Qed.

Lemma removeEl_st (el : Element) (w : World) : st (removeEl el w) = st w.
Proof. reflexivity. Qed.

Lemma evictPipes_st (ps : list Pipe.t) :
  forall w, st (snd (evictPipes ps w)) = st w.
Proof.
  induction ps as [|pipe rest IH]; intros w; cbn [evictPipes].
  - reflexivity.
  - destruct (visible (st w) pipe).
    + specialize (IH w). destruct (evictPipes rest w) as [kept w1].
      exact IH.
    + rewrite IH. reflexivity.
Qed.

Lemma evictPipes_kept (ps : list Pipe.t) :
  forall w, fst (evictPipes ps w) = filter (visible (st w)) ps.
Proof.
  induction ps as [|pipe rest IH]; intros w; cbn [evictPipes filter].
  - reflexivity.
  - destruct (visible (st w) pipe).
    + specialize (IH w). destruct (evictPipes rest w) as [kept w1].
      cbn [fst] in *. now rewrite IH.
    + rewrite IH. reflexivity.
Qed.

(** [updatePipes] in one equation: the pipes it leaves are the advanced
    pipes that pass the filter. *)
Lemma updatePipes_pipes (deltaSec : Q) (page : Page) (w : World) :
  pipes (st (updatePipes deltaSec page w)) =
  filter (visible (st w))
    (fst (forEachPipe (pipeSpeed (st w) * 60 * deltaSec)
            (birdX (st w) + birdWidth (getSizes page)) (pipes (st w)) w)).
Proof.
  unfold updatePipes.
  pose proof (forEachPipe_st (pipeSpeed (st w) * 60 * deltaSec)
                (birdX (st w) + birdWidth (getSizes page))
                (pipes (st w)) w) as Hst.
  destruct (forEachPipe _ _ (pipes (st w)) w) as [ps w1].
  cbn [fst snd] in *.
  pose proof (evictPipes_kept (pipes (st (onState (set_pipes ps) w1)))
                (onState (set_pipes ps) w1)) as Hk.
  destruct (evictPipes _ (onState (set_pipes ps) w1)) as [kept w3].
  cbn [fst] in Hk. cbn. rewrite Hk. cbn.
  apply filter_ext. intros p. unfold visible. cbn.
  now rewrite (sameButScores_pipeWidth _ _ Hst).
Qed.

(** ** C1: eviction *)

(** C1 (as stated, refuted): a gate whose trailing edge is exactly -10 is
    evicted.  A gate at x = -70.8 moves by 2.4 * 60 * 0.05 = 7.2 to
    x = -78; its trailing edge -78 + 68 is -10, which is not below -10,
    and [updatePipes] drops it. *)
Lemma evict_boundary_gate_dropped :
  let w := playingWith [gateAt (-70.8) true 0] in
  (exists pipe,
      advancedPipes 0.05 demoPage w = [pipe]
      /\ Pipe.x pipe == -78
      /\ trailingEdge (st w) pipe == -10
      /\ ~ trailingEdge (st w) pipe < -10)
  /\ pipes (st (updatePipes 0.05 demoPage w)) = [].
Proof.
  split.
  - eexists. split; [reflexivity|].
    repeat split; try reflexivity.
    vm_compute. discriminate.
  - reflexivity.
Qed.

(** C1 (amended): [updatePipes] keeps exactly the advanced gates whose
    trailing edge is to the right of -10, in their order, and so evicts
    exactly those whose trailing edge is at or left of -10: with
    [pipeWidth] 68 the gate at trailing edge -10 (x = -78) goes, like the
    one at -11 (x = -79). *)
Theorem evict_iff_trailing_edge_le_margin
  (deltaSec : Q) (page : Page) (w : World) :
  pipes (st (updatePipes deltaSec page w)) =
    filter (fun pipe => Js.gt (trailingEdge (st w) pipe) (-10))
      (advancedPipes deltaSec page w)
  /\ (forall pipe,
         In pipe (pipes (st (updatePipes deltaSec page w))) <->
         In pipe (advancedPipes deltaSec page w)
         /\ -10 < trailingEdge (st w) pipe)
  /\ (forall pipe,
         In pipe (advancedPipes deltaSec page w) ->
         (~ In pipe (pipes (st (updatePipes deltaSec page w))) <->
          trailingEdge (st w) pipe <= -10))
  /\ (forall pipe,
         pipeWidth (st w) == 68 ->
         Pipe.x pipe == -78 \/ Pipe.x pipe == -79 ->
         visible (st w) pipe = false).
Proof.
  pose proof (updatePipes_pipes deltaSec page w) as Heq.
  fold (advancedPipes deltaSec page w) in Heq.
  assert (Hin : forall pipe,
             In pipe (pipes (st (updatePipes deltaSec page w))) <->
             In pipe (advancedPipes deltaSec page w)
             /\ -10 < trailingEdge (st w) pipe).
  { intros pipe. rewrite Heq, filter_In. unfold visible.
    fold (trailingEdge (st w) pipe). now rewrite gt_true. }
  split; [exact Heq|]. split; [exact Hin|]. split.
  - intros pipe Hadv. split.
    + intros Hout. apply Qnot_lt_le. intros Hlt.
      apply Hout. apply Hin. now split.
    + intros Hle Hkept. apply Hin in Hkept. lra.
  - intros pipe Hw Hx. unfold visible. apply gt_false.
    destruct Hx as [Hx|Hx]; rewrite Hx, Hw; lra.
Qed.

(** An instance: of two gates the one that reaches x = -79 is dropped. *)
Lemma evict_iff_trailing_edge_le_margin_witness :
  let w := playingWith [gateAt (-71.8) true 0; gateAt 200 false 1] in
  let gone := hd (gateAt 0 false 0) (advancedPipes 0.05 demoPage w) in
  Pipe.x gone == -79
  /\ ~ In gone (pipes (st (updatePipes 0.05 demoPage w)))
  /\ visible (st w) (gateAt (-78) true 0) = false.
Proof.
  cbv zeta.
  pose proof (evict_iff_trailing_edge_le_margin 0.05 demoPage
                (playingWith [gateAt (-71.8) true 0; gateAt 200 false 1]))
    as [_ [_ [Hout Hedge]]].
  split; [reflexivity|]. split.
  - apply Hout.
    + left. reflexivity.
    + vm_compute. discriminate.
  - apply Hedge.
    + reflexivity.
    + left. reflexivity.
Defined.

(** ** What the second half of a frame leaves alone *)

Lemma sameButScores_fields (s s' : State) :
  sameButScores s s' ->
  kinematics s' = kinematics s /\ tuning s' = tuning s
  /\ gameState s' = gameState s /\ pipes s' = pipes s
  /\ lastPipeTime s' = lastPipeTime s
  /\ animationFrameId s' = animationFrameId s.
Proof. intros H. rewrite H. repeat split. Qed.

Lemma updatePipes_st (deltaSec : Q) (page : Page) (w : World) :
  exists ps,
    sameButScores (set_pipes ps (st w)) (st (updatePipes deltaSec page w)).
Proof.
  unfold updatePipes.
  pose proof (forEachPipe_st (pipeSpeed (st w) * 60 * deltaSec)
                (birdX (st w) + birdWidth (getSizes page))
                (pipes (st w)) w) as Hst.
  destruct (forEachPipe _ _ (pipes (st w)) w) as [ps w1].
  cbn [snd] in Hst.
  pose proof (evictPipes_st (pipes (st (onState (set_pipes ps) w1)))
                (onState (set_pipes ps) w1)) as He.
  destruct (evictPipes _ (onState (set_pipes ps) w1)) as [kept w3].
  cbn [snd] in He. exists kept.
  unfold sameButScores. cbn. rewrite He. cbn.
  rewrite Hst. reflexivity.
Qed.

Lemma updatePipes_fields (deltaSec : Q) (page : Page) (w : World) :
  kinematics (st (updatePipes deltaSec page w)) = kinematics (st w)
  /\ tuning (st (updatePipes deltaSec page w)) = tuning (st w)
  /\ gameState (st (updatePipes deltaSec page w)) = gameState (st w)
  /\ lastPipeTime (st (updatePipes deltaSec page w)) = lastPipeTime (st w)
  /\ animationFrameId (st (updatePipes deltaSec page w))
     = animationFrameId (st w).
Proof.
  destruct (updatePipes_st deltaSec page w) as [ps H].
  apply sameButScores_fields in H.
  destruct H as (Hk & Ht & Hg & _ & Hl & Ha).
  rewrite Hk, Ht, Hg, Hl, Ha. repeat split.
Qed.

(** [gameLoop] on a session in play, phase by phase. *)
Lemma gameLoop_playing (now rnd : Q) (page : Page) (w : World) :
  gameState (st w) = playing ->
  gameLoop now rnd page w =
  let w7 := afterPipes now rnd page w in
  if hasCollision page w7 then endGame w7 else requestAnimationFrame w7.
Proof.
  intros Hplay. unfold gameLoop, afterPipes, afterPhysics, frameStep.
  rewrite Hplay.
  destruct w as [s ? ? ? ? ? ? ? ?]; destruct s; cbn in *.
  destruct (Js.not _); reflexivity.
Qed.

Lemma gameLoop_idle (now rnd : Q) (page : Page) (w : World) :
  gameState (st w) <> playing -> gameLoop now rnd page w = w.
Proof.
  intros H. unfold gameLoop. destruct (gameState (st w)); congruence.
Qed.

Lemma cancelAnimationFrame_st (id : option nat) (w : World) :
  st (cancelAnimationFrame id w) = st w.
Proof. destruct id; reflexivity. Qed.

Lemma endGame_st (w : World) :
  st (endGame w) = set_gameState gameover (st w).
Proof. unfold endGame. cbn. now rewrite cancelAnimationFrame_st. Qed.

Lemma requestAnimationFrame_st (w : World) :
  st (requestAnimationFrame w)
  = set_animationFrameId (Some (nextFrameId w)) (st w).
Proof. reflexivity. Qed.

Lemma createPipe_fields (now rnd : Q) (page : Page) (w : World) :
  kinematics (st (createPipe now rnd page w)) = kinematics (st w)
  /\ tuning (st (createPipe now rnd page w)) = tuning (st w)
  /\ gameState (st (createPipe now rnd page w)) = gameState (st w)
  /\ score (st (createPipe now rnd page w)) = score (st w)
  /\ highScore (st (createPipe now rnd page w)) = highScore (st w).
Proof. repeat split. Qed.

Lemma afterPipes_fields (now rnd : Q) (page : Page) (w : World) :
  kinematics (st (afterPipes now rnd page w))
  = kinematics (st (afterPhysics now w))
  /\ tuning (st (afterPipes now rnd page w)) = tuning (st w)
  /\ gameState (st (afterPipes now rnd page w)) = gameState (st w).
Proof.
  unfold afterPipes.
  set (w5 := afterPhysics now w).
  set (w6 := if spawnDue now (st w5) then _ else _).
  destruct (updatePipes_fields (frameStep now w) page w6)
    as (Hk & Ht & Hg & _).
  rewrite Hk, Ht, Hg. subst w6.
  destruct (spawnDue now (st w5)); repeat split.
Qed.

(** The kinematic fields after a frame of a session in play are those the
    physics lines wrote. *)
Lemma gameLoop_kinematics (now rnd : Q) (page : Page) (w : World) :
  gameState (st w) = playing ->
  kinematics (st (gameLoop now rnd page w))
  = kinematics (st (afterPhysics now w))
  /\ tuning (st (gameLoop now rnd page w)) = tuning (st w).
Proof.
  intros Hplay. rewrite (gameLoop_playing now rnd page w Hplay).
  cbv zeta.
  destruct (afterPipes_fields now rnd page w) as (Hk & Ht & _).
  destruct (hasCollision page (afterPipes now rnd page w)).
  - rewrite endGame_st. split; [exact Hk | exact Ht].
  - rewrite requestAnimationFrame_st. split; [exact Hk | exact Ht].
Qed.

(** The step of a frame and what the physics lines do with it. *)
Lemma frame_step_facts (now rnd : Q) (page : Page) (w : World) :
  gameState (st w) = playing ->
  frameStep now w <= 0.05
  /\ (~ lastFrameTime (st w) == 0 ->
      0.05 <= (now - lastFrameTime (st w)) / 1000 ->
      frameStep now w == 0.05)
  /\ lastFrameTime (st (gameLoop now rnd page w)) = now
  /\ birdVelocity (st (gameLoop now rnd page w))
     = birdVelocity (st w) + gravity (st w) * 60 * frameStep now w
  /\ birdY (st (gameLoop now rnd page w))
     = birdY (st w)
       + birdVelocity (st (gameLoop now rnd page w)) * 60 * frameStep now w.
Proof.
  intros Hplay.
  destruct (gameLoop_kinematics now rnd page w Hplay) as [Hk _].
  unfold kinematics in Hk. cbn in Hk.
  injection Hk as _ Hy Hv Ht.
  split; [apply Q.le_min_r|]. split.
  - intros Hset Hlong. unfold frameStep.
    apply not_false in Hset. rewrite Hset.
    unfold deltaSecOf. apply Q.min_r. exact Hlong.
  - rewrite Ht, Hy, Hv. repeat split.
Qed.

(** ** C9: the clamped step *)



(** ** C2: the integrator on 100 ms frames *)




(** ** C3: collision tests *)

Lemma intersects_overlaps (a b : Rect.t) :
  intersects a b = true <-> overlaps a b.
Proof.
  unfold intersects, overlaps.
  rewrite !andb_true_iff, !lt_true, !gt_true. tauto.
Qed.

Lemma hitsPipe_exists (page : Page) (birdRect : Rect.t) (ps : list Pipe.t) :
  hitsPipe page birdRect ps = true <->
  exists pipe,
    In pipe ps
    /\ (overlaps birdRect (elementClientRect page (Pipe.topEl pipe))
        \/ overlaps birdRect (elementClientRect page (Pipe.bottomEl pipe))).
Proof.
  induction ps as [|pipe rest IH]; cbn [hitsPipe].
  - split; [discriminate|]. intros (p & [] & _).
  - destruct (intersects birdRect (elementClientRect page (Pipe.topEl pipe)))
      eqn:Etop.
    { split; [|reflexivity]. intros _. exists pipe. split; [now left|].
      left. now apply intersects_overlaps. }
    destruct (intersects birdRect
                (elementClientRect page (Pipe.bottomEl pipe))) eqn:Ebot.
    { split; [|reflexivity]. intros _. exists pipe. split; [now left|].
      right. now apply intersects_overlaps. }
    rewrite IH. split.
    + intros (p & Hin & Hov). exists p. split; [now right|exact Hov].
    + intros (p & [Heq|Hin] & Hov).
      * subst p. rewrite <- !intersects_overlaps in Hov.
        destruct Hov; congruence.
      * exists p. now split.
Qed.

(** C3: a gate segment is hit only on open-interval overlap on both axes,
    so a box that merely touches a segment's edge does not intersect it;
    the field boundary is inclusive: the bird's top at or above the upper
    edge, or its bottom at or below the ground line, is a collision, and
    these three are the only ways [hasCollision] answers true. *)
Theorem gate_hit_strict_field_hit_inclusive (page : Page) (w : World) :
  let bird := birdClientRect page (birdStyle w) in
  let birdTop := Rect.top bird - Rect.top (gameRect page) in
  let birdBottom := Rect.bottom bird - Rect.top (gameRect page) in
  let groundLine :=
    gameHeight (getSizes page) - groundHeight (getSizes page) in
  (forall a b, intersects a b = true <-> overlaps a b)
  /\ (forall a b, touches a b -> intersects a b = false)
  /\ (birdTop <= 0 -> hasCollision page w = true)
  /\ (groundLine <= birdBottom -> hasCollision page w = true)
  /\ (hasCollision page w = true <->
      birdTop <= 0 \/ groundLine <= birdBottom
      \/ exists pipe,
           In pipe (pipes (st w))
           /\ (overlaps bird (elementClientRect page (Pipe.topEl pipe))
               \/ overlaps bird
                    (elementClientRect page (Pipe.bottomEl pipe)))).
Proof.
  cbv zeta.
  assert (Hall : hasCollision page w = true <->
            Rect.top (birdClientRect page (birdStyle w))
              - Rect.top (gameRect page) <= 0
            \/ gameHeight (getSizes page) - groundHeight (getSizes page)
               <= Rect.bottom (birdClientRect page (birdStyle w))
                  - Rect.top (gameRect page)
            \/ exists pipe,
                In pipe (pipes (st w))
                /\ (overlaps (birdClientRect page (birdStyle w))
                      (elementClientRect page (Pipe.topEl pipe))
                    \/ overlaps (birdClientRect page (birdStyle w))
                         (elementClientRect page (Pipe.bottomEl pipe)))).
  { unfold hasCollision.
    destruct (Js.le _ 0) eqn:Etop.
    { apply le_true in Etop. split; [now left|reflexivity]. }
    apply le_false in Etop.
    destruct (Js.ge _ _) eqn:Eground.
    { apply ge_true in Eground.
      split; [intros _; right; left; exact Eground|reflexivity]. }
    apply ge_false in Eground.
    rewrite hitsPipe_exists. split.
    - intros H. right. right. exact H.
    - intros [H|[H|H]]; [lra|lra|exact H]. }
  split; [exact intersects_overlaps|]. split.
  - intros a b Htouch.
    destruct (intersects a b) eqn:E; [|reflexivity].
    apply intersects_overlaps in E. unfold overlaps in E.
    unfold touches in Htouch.
    destruct Htouch as [H|[H|[H|H]]]; lra.
  - split; [|split].
    + intros H. apply Hall. now left.
    + intros H. apply Hall. right. now left.
    + exact Hall.
Qed.

(** An instance: a segment that starts where the bird's box ends is not
    hit; the bird at the top edge and the bird standing on the ground
    line collide. *)
Lemma gate_hit_strict_field_hit_inclusive_witness :
  intersects (Rect.mk 90 100 124 128) (Rect.mk 124 0 192 140) = false
  /\ hasCollision demoPage
       (placeBird (onState (set_birdY 0) (playingWith []))) = true
  /\ hasCollision demoPage
       (placeBird (onState (set_birdY 422) (playingWith []))) = true.
Proof.
  split; [|split].
  - destruct (gate_hit_strict_field_hit_inclusive demoPage demoWorld)
      as (_ & Htouch & _).
    apply Htouch. left. reflexivity.
  - destruct (gate_hit_strict_field_hit_inclusive demoPage
                (placeBird (onState (set_birdY 0) (playingWith []))))
      as (_ & _ & Hceiling & _).
    apply Hceiling. vm_compute. discriminate.
  - destruct (gate_hit_strict_field_hit_inclusive demoPage
                (placeBird (onState (set_birdY 422) (playingWith []))))
      as (_ & _ & _ & Hground & _).
    apply Hground. vm_compute. discriminate.
Defined.

(** ** C5: restart *)

Lemma st_onState (f : State -> State) (w : World) :
  st (onState f w) = f (st w).
Proof. reflexivity. Qed.

Lemma st_placeBird (w : World) : st (placeBird w) = st w.
Proof. reflexivity. Qed.

Lemma st_updateScoreBoard (w : World) : st (updateScoreBoard w) = st w.
Proof. reflexivity. Qed.

Lemma st_setOverlay (message : OverlayText) (visible : bool) (w : World) :
  st (setOverlay message visible w) = st w.
Proof. reflexivity. Qed.

Lemma clearPipes_st (w : World) : st (clearPipes w) = set_pipes [] (st w).
Proof.
  unfold clearPipes. rewrite st_onState. f_equal.
  generalize (pipes (st w)). intros ps. revert w.
  induction ps as [|pipe rest IH]; intros w; cbn [fold_left].
  - reflexivity.
  - now rewrite IH.
Qed.

Lemma resetBird_st (page : Page) (w : World) :
  st (resetBird page w)
  = set_birdVelocity 0
      (set_birdY ((gameHeight (getSizes page) - groundHeight (getSizes page)
                   - birdHeight (getSizes page)) / 2) (st w)).
Proof. reflexivity. Qed.

Lemma resetGameState_st (page : Page) (w : World) :
  st (resetGameState page w)
  = set_birdVelocity 0
      (set_birdY ((gameHeight (getSizes page) - groundHeight (getSizes page)
                   - birdHeight (getSizes page)) / 2)
         (set_pipes []
            (set_lastFrameTime 0
               (set_lastPipeTime 0 (set_score 0 (st w)))))).
Proof.
  unfold resetGameState.
  rewrite st_updateScoreBoard, resetBird_st, clearPipes_st.
  reflexivity.
Qed.

(** The state a restart leaves, written out. *)
Lemma startPlaying_restart_st (page : Page) (w : World) :
  gameState (st w) <> playing ->
  exists id,
    st (startPlaying page w)
    = set_animationFrameId (Some id)
        (set_birdVelocity (jumpStrength (st w))
           (set_gameState playing (st (resetGameState page w)))).
Proof.
  intros Hidle. unfold startPlaying.
  destruct (gameState (st w)); try congruence; eexists;
    rewrite requestAnimationFrame_st, st_onState, st_setOverlay, st_onState;
    rewrite resetGameState_st; reflexivity.
Qed.

(** C5: activating from the start or the game-over state leaves the score
    at 0 and no gate, the bird at the vertical centre of the playable
    field, and its velocity at the impulse constant; the session is in
    play.  The three activating inputs all do so. *)
Theorem restart_resets_session (page : Page) (w : World) :
  gameState (st w) = start \/ gameState (st w) = gameover ->
  let w' := startPlaying page w in
  score (st w') = 0
  /\ pipes (st w') = []
  /\ birdY (st w')
     = (gameHeight (getSizes page) - groundHeight (getSizes page)
        - birdHeight (getSizes page)) / 2
  /\ birdVelocity (st w') = jumpStrength (st w)
  /\ gameState (st w') = playing
  /\ handleInput (keydown "Space") page w = w'
  /\ handleInput mousedown page w = w'
  /\ handleInput touchstart page w = w'.
Proof.
  intros Hidle. cbv zeta.
  assert (Hnp : gameState (st w) <> playing)
    by (destruct Hidle as [H|H]; rewrite H; discriminate).
  destruct (startPlaying_restart_st page w Hnp) as [id Hst].
  rewrite Hst, resetGameState_st. repeat split.
Qed.

(** An instance: a restart after a crash with score 3 and a gate left. *)
Lemma restart_resets_session_witness :
  let crashed :=
    endGame (onState (set_score 3) (playingWith [gateAt 120 true 0])) in
  let w' := startPlaying demoPage crashed in
  score (st w') = 0 /\ pipes (st w') = [] /\ birdY (st w') == 211
  /\ birdVelocity (st w') == -8.5.
Proof.
  cbv zeta.
  destruct (restart_resets_session demoPage
              (endGame (onState (set_score 3)
                          (playingWith [gateAt 120 true 0])))
              (or_intror eq_refl))
    as (Hs & Hp & Hy & Hv & _).
  rewrite Hs, Hp, Hy, Hv. repeat split.
Defined.

(** ** C7: the heights of a new gate *)

Lemma createPipe_pipes (now rnd : Q) (page : Page) (w : World) :
  pipes (st (createPipe now rnd page w))
  = pipes (st w) ++ [newPipe rnd page w].
Proof.
  unfold newPipe. cbn. now rewrite last_last.
Qed.

Lemma newPipe_fields (rnd : Q) (page : Page) (w : World) :
  let g := pipeGeometry rnd (getSizes page) (st w) in
  Pipe.x (newPipe rnd page w) = gameWidth (getSizes page)
  /\ Pipe.passed (newPipe rnd page w) = false
  /\ Pipe.topHeight (newPipe rnd page w) = geoTopHeight g
  /\ Pipe.bottomY (newPipe rnd page w) = geoBottomY g
  /\ styleHeight (Pipe.topEl (newPipe rnd page w)) = geoTopHeight g
  /\ styleTop (Pipe.bottomEl (newPipe rnd page w)) = Some (geoBottomY g)
  /\ styleHeight (Pipe.bottomEl (newPipe rnd page w)) = geoBottomHeight g
  /\ elId (Pipe.topEl (newPipe rnd page w)) = created w
  /\ elId (Pipe.bottomEl (newPipe rnd page w)) = S (created w).
Proof.
  unfold newPipe. cbn. rewrite last_last. cbn. repeat split.
Qed.

(** C7: for a draw in [0,1) on a field with
    [availableHeight >= pipeGap + 2 * minPipeHeight], the top segment of
    the gate [createPipe] appends has its height in
    [minPipeHeight, availableHeight - pipeGap - minPipeHeight], so the
    top segment and the bottom segment are both at least [minPipeHeight]
    high. *)
Theorem new_gate_heights_bounded
  (now rnd : Q) (page : Page) (w : World) :
  0 <= rnd -> rnd < 1 ->
  pipeGap (st w) + 2 * minPipeHeight (st w)
    <= gameHeight (getSizes page) - groundHeight (getSizes page) ->
  let availableHeight :=
    gameHeight (getSizes page) - groundHeight (getSizes page) in
  let pipe := newPipe rnd page w in
  pipes (st (createPipe now rnd page w)) = pipes (st w) ++ [pipe]
  /\ minPipeHeight (st w) <= Pipe.topHeight pipe
  /\ Pipe.topHeight pipe
     <= availableHeight - pipeGap (st w) - minPipeHeight (st w)
  /\ Pipe.bottomY pipe == Pipe.topHeight pipe + pipeGap (st w)
  /\ styleHeight (Pipe.topEl pipe) = Pipe.topHeight pipe
  /\ styleHeight (Pipe.bottomEl pipe) == availableHeight - Pipe.bottomY pipe
  /\ minPipeHeight (st w) <= styleHeight (Pipe.topEl pipe)
  /\ minPipeHeight (st w) <= styleHeight (Pipe.bottomEl pipe).
Proof.
  intros Hr0 Hr1 Hfield. cbv zeta.
  destruct (newPipe_fields rnd page w)
    as (_ & _ & Htop & Hby & Hsth & _ & Hsbh & _).
  cbv zeta in *.
  rewrite Hsth, Hsbh, Htop, Hby.
  split; [apply createPipe_pipes|].
  unfold pipeGeometry.
  cbn [geoTopHeight geoBottomY geoBottomHeight].
  set (avail := gameHeight (getSizes page) - groundHeight (getSizes page))
    in *.
  set (gap := pipeGap (st w)) in *.
  set (minH := minPipeHeight (st w)) in *.
  assert (Hspan : 0 <= avail - gap - minH - minH) by lra.
  assert (Hlo : 0 <= rnd * (avail - gap - minH - minH)) by nra.
  assert (Hhi : rnd * (avail - gap - minH - minH)
                <= avail - gap - minH - minH) by nra.
  repeat split; try reflexivity; lra.
Qed.

(** An instance: the draw 0.75 on the 400 x 500 field. *)
Lemma new_gate_heights_bounded_witness :
  let pipe := newPipe 0.75 demoPage (playingWith []) in
  70 <= Pipe.topHeight pipe /\ Pipe.topHeight pipe <= 210
  /\ 70 <= styleHeight (Pipe.bottomEl pipe).
Proof.
  cbv zeta.
  destruct (new_gate_heights_bounded 1000 0.75 demoPage (playingWith []))
    as (_ & Hlo & Hhi & _ & _ & _ & _ & Hbot).
  - vm_compute. discriminate.
  - reflexivity.
  - vm_compute. discriminate.
  - split; [exact Hlo|]. split; [|exact Hbot].
    eapply Qle_trans; [exact Hhi|]. vm_compute. discriminate.
Defined.

(** ** C10: a gate created at time 0 *)

Lemma advancePipe_created (moveBy birdFront : Q) (pipe : Pipe.t)
  (w : World) :
  created (snd (advancePipe moveBy birdFront pipe w)) = created w.
Proof.
  unfold advancePipe.
  destruct (negb _ && _); [|reflexivity].
  cbn [snd]. destruct (Js.gt _ _); reflexivity.
Qed.

Lemma forEachPipe_created (moveBy birdFront : Q) (ps : list Pipe.t) :
  forall w, created (snd (forEachPipe moveBy birdFront ps w)) = created w.
Proof.
  induction ps as [|pipe rest IH]; intros w; cbn [forEachPipe].
  - reflexivity.
  - forEach_cons advancePipe_created IH. congruence.
Qed.

Lemma evictPipes_created (ps : list Pipe.t) :
  forall w, created (snd (evictPipes ps w)) = created w.
Proof.
  induction ps as [|pipe rest IH]; intros w; cbn [evictPipes].
  - reflexivity.
  - destruct (visible (st w) pipe).
    + specialize (IH w). destruct (evictPipes rest w) as [kept w1].
      exact IH.
    + rewrite IH. reflexivity.
Qed.

Lemma updatePipes_created (deltaSec : Q) (page : Page) (w : World) :
  created (updatePipes deltaSec page w) = created w.
Proof.
  unfold updatePipes.
  pose proof (forEachPipe_created (pipeSpeed (st w) * 60 * deltaSec)
                (birdX (st w) + birdWidth (getSizes page))
                (pipes (st w)) w) as Hc.
  destruct (forEachPipe _ _ (pipes (st w)) w) as [ps w1].
  cbn [snd] in Hc.
  pose proof (evictPipes_created (pipes (st (onState (set_pipes ps) w1)))
                (onState (set_pipes ps) w1)) as He.
  destruct (evictPipes _ (onState (set_pipes ps) w1)) as [kept w3].
  cbn [snd] in He. cbn. rewrite He. exact Hc.
Qed.

Lemma endGame_created (w : World) : created (endGame w) = created w.
Proof.
  unfold endGame. cbn. destruct (animationFrameId (st w)); reflexivity.
Qed.

(** A frame of a session in play creates two elements when a gate is due
    and none otherwise, and a due gate stamps the spawn time. *)
Lemma gameLoop_spawn (now rnd : Q) (page : Page) (w : World) :
  gameState (st w) = playing ->
  created (gameLoop now rnd page w)
  = (if spawnDue now (st w) then S (S (created w)) else created w)
  /\ lastPipeTime (st (gameLoop now rnd page w))
     = (if spawnDue now (st w) then now else lastPipeTime (st w))
  /\ pipeInterval (st (gameLoop now rnd page w)) = pipeInterval (st w).
Proof.
  intros Hplay. rewrite (gameLoop_playing now rnd page w Hplay).
  cbv zeta.
  assert (Hmid : created (afterPipes now rnd page w)
                 = (if spawnDue now (st w)
                    then S (S (created w)) else created w)
                 /\ lastPipeTime (st (afterPipes now rnd page w))
                    = (if spawnDue now (st w)
                       then now else lastPipeTime (st w))
                 /\ pipeInterval (st (afterPipes now rnd page w))
                    = pipeInterval (st w)).
  { unfold afterPipes.
    set (w5 := afterPhysics now w).
    set (w6 := if spawnDue now (st w5) then _ else _).
    destruct (updatePipes_fields (frameStep now w) page w6)
      as (_ & Ht & _ & Hl & _).
    rewrite updatePipes_created, Hl.
    assert (Hi : pipeInterval (st (updatePipes (frameStep now w) page w6))
                 = pipeInterval (st w6)).
    { unfold tuning in Ht. congruence. }
    rewrite Hi. subst w6.
    change (spawnDue now (st w5)) with (spawnDue now (st w)).
    destruct (spawnDue now (st w)); repeat split. }
  destruct Hmid as (Hc & Hl & Hi).
  destruct (hasCollision page (afterPipes now rnd page w)).
  - rewrite endGame_created, endGame_st. cbn.
    split; [exact Hc|]. split; [exact Hl|exact Hi].
  - rewrite requestAnimationFrame_st. cbn.
    split; [exact Hc|]. split; [exact Hl|exact Hi].
Qed.

(** C10: a frame that creates a gate records its time stamp as the last
    spawn time.  When that stamp is 0 it is the value the spawn test
    reads as "no gate yet": the test succeeds at every later time,
    whatever the interval, and the next frame of the session creates
    another gate.  When the stamp is not 0 the next gate waits for the
    interval. *)
Theorem spawn_at_time_zero_repeats
  (now rnd : Q) (page : Page) (w : World) :
  gameState (st w) = playing ->
  spawnDue now (st w) = true ->
  let w1 := gameLoop now rnd page w in
  created w1 = S (S (created w))
  /\ lastPipeTime (st w1) = now
  /\ (now == 0 ->
      forall now' rnd' page',
        spawnDue now' (st w1) = true
        /\ (gameState (st w1) = playing ->
            created (gameLoop now' rnd' page' w1) = S (S (created w1))))
  /\ (~ now == 0 ->
      forall now',
        spawnDue now' (st w1) = true <-> pipeInterval (st w) <= now' - now).
Proof.
  intros Hplay Hdue. cbv zeta.
  destruct (gameLoop_spawn now rnd page w Hplay) as (Hc & Hl & Hi).
  rewrite Hdue in Hc, Hl.
  split; [exact Hc|]. split; [exact Hl|]. split.
  - intros Hzero now' rnd' page'.
    assert (Hdue' : spawnDue now' (st (gameLoop now rnd page w)) = true).
    { unfold spawnDue. rewrite Hl.
      apply orb_true_iff. left. now apply not_true. }
    split; [exact Hdue'|].
    intros Hplay'.
    destruct (gameLoop_spawn now' rnd' page' _ Hplay') as (Hc' & _).
    now rewrite Hdue' in Hc'.
  - intros Hnz now'. unfold spawnDue. rewrite Hl, Hi.
    apply not_false in Hnz. rewrite Hnz. cbn [orb].
    apply ge_true.
Qed.

(** An instance: frames at 0 ms and 16 ms both create a gate. *)
Lemma spawn_at_time_zero_repeats_witness :
  let w := startPlaying demoPage demoWorld in
  let w1 := gameLoop 0 0.5 demoPage w in
  List.length (pipes (st w1)) = 1%nat
  /\ lastPipeTime (st w1) = 0
  /\ created (gameLoop 16 0.5 demoPage w1) = 4%nat
  /\ List.length (pipes (st (gameLoop 16 0.5 demoPage w1))) = 2%nat.
Proof.
  cbv zeta.
  destruct (spawn_at_time_zero_repeats 0 0.5 demoPage
              (startPlaying demoPage demoWorld) eq_refl eq_refl)
    as (_ & Hl & Hzero & _).
  split; [reflexivity|]. split; [exact Hl|]. split.
  - destruct (Hzero (Qeq_refl 0) 16 0.5 demoPage) as [_ Hnext].
    rewrite (Hnext eq_refl). reflexivity.
  - reflexivity.
Defined.

(** ** Scoring *)

(** What one call of the [forEach] callback does to the flag and to the
    two counters. *)
Lemma advancePipe_scoring (moveBy birdFront : Q) (pipe : Pipe.t)
  (w : World) :
  let pipe' := fst (advancePipe moveBy birdFront pipe w) in
  let w' := snd (advancePipe moveBy birdFront pipe w) in
  Pipe.passed pipe'
  = Pipe.passed pipe || passesNow moveBy birdFront (st w) pipe
  /\ Pipe.x pipe' = Pipe.x pipe - moveBy
  /\ elId (Pipe.topEl pipe') = elId (Pipe.topEl pipe)
  /\ elId (Pipe.bottomEl pipe') = elId (Pipe.bottomEl pipe)
  /\ (passesNow moveBy birdFront (st w) pipe = false -> w' = w)
  /\ (passesNow moveBy birdFront (st w) pipe = true ->
      score (st w') = score (st w) + 1
      /\ highScore (st w')
         = (if Js.gt (score (st w) + 1) (highScore (st w))
            then score (st w) + 1 else highScore (st w))).
Proof.
  cbv zeta. unfold advancePipe, passesNow.
  cbn [Pipe.passed Pipe.x].
  destruct (negb (Pipe.passed pipe) && _) eqn:Etest; cbn [fst snd].
  - split; [cbn; now rewrite orb_true_r|].
    split; [reflexivity|]. split; [reflexivity|]. split; [reflexivity|].
    split; [discriminate|]. intros _.
    cbn. destruct (Js.gt (score (st w) + 1) (highScore (st w)));
      split; reflexivity.
  - split; [cbn; now rewrite orb_false_r|].
    split; [reflexivity|]. split; [reflexivity|]. split; [reflexivity|].
    split; [reflexivity|discriminate].
Qed.

(** One call never lowers the high score, and after a call that scores
    the score is at most the high score. *)
Lemma advancePipe_highScore (moveBy birdFront : Q) (pipe : Pipe.t)
  (w : World) :
  let w' := snd (advancePipe moveBy birdFront pipe w) in
  highScore (st w) <= highScore (st w')
  /\ score (st w) <= score (st w')
  /\ (passesNow moveBy birdFront (st w) pipe = true ->
      score (st w') <= highScore (st w'))
  /\ (score (st w) <= highScore (st w) ->
      score (st w') <= highScore (st w')).
Proof.
  cbv zeta.
  destruct (advancePipe_scoring moveBy birdFront pipe w)
    as (_ & _ & _ & _ & Hno & Hyes).
  destruct (passesNow moveBy birdFront (st w) pipe).
  - destruct (Hyes eq_refl) as [Hs Hh]. rewrite Hs, Hh.
    destruct (Js.gt (score (st w) + 1) (highScore (st w))) eqn:Egt.
    + apply gt_true in Egt. repeat split; intros; lra.
    + apply gt_false in Egt. repeat split; intros; lra.
  - rewrite (Hno eq_refl). repeat split; intros; try lra; discriminate.
Qed.

Lemma forEachPipe_highScore (moveBy birdFront : Q) (ps : list Pipe.t) :
  forall w,
    let w' := snd (forEachPipe moveBy birdFront ps w) in
    highScore (st w) <= highScore (st w')
    /\ score (st w) <= score (st w')
    /\ (score (st w) <= highScore (st w) ->
        score (st w') <= highScore (st w')).
Proof.
  induction ps as [|pipe rest IH]; intros w; cbn [forEachPipe].
  - cbn. repeat split; intros; lra.
  - forEach_cons advancePipe_highScore IH.
    destruct Hhd as (Hh1 & Hs1 & _ & Hi1). destruct IH as (Hh2 & Hs2 & Hi2).
    repeat split; intros; try lra; auto.
Qed.

(** The counters after [updatePipes] are those its [forEach] leaves. *)
Lemma updatePipes_counters (deltaSec : Q) (page : Page) (w : World) :
  let w1 := snd (forEachPipe (pipeSpeed (st w) * 60 * deltaSec)
                   (birdX (st w) + birdWidth (getSizes page))
                   (pipes (st w)) w) in
  score (st (updatePipes deltaSec page w)) = score (st w1)
  /\ highScore (st (updatePipes deltaSec page w)) = highScore (st w1).
Proof.
  cbv zeta. unfold updatePipes.
  destruct (forEachPipe _ _ (pipes (st w)) w) as [ps w1].
  pose proof (evictPipes_st (pipes (st (onState (set_pipes ps) w1)))
                (onState (set_pipes ps) w1)) as He.
  destruct (evictPipes _ (onState (set_pipes ps) w1)) as [kept w3].
  cbn [snd] in *. cbn. rewrite He. split; reflexivity.
Qed.

Lemma updatePipes_highScore (deltaSec : Q) (page : Page) (w : World) :
  highScore (st w) <= highScore (st (updatePipes deltaSec page w))
  /\ score (st w) <= score (st (updatePipes deltaSec page w))
  /\ (score (st w) <= highScore (st w) ->
      score (st (updatePipes deltaSec page w))
      <= highScore (st (updatePipes deltaSec page w))).
Proof.
  destruct (updatePipes_counters deltaSec page w) as [Hs Hh].
  rewrite Hs, Hh. apply forEachPipe_highScore.
Qed.

(** ** C4: the high score *)

Lemma afterPipes_counters (now rnd : Q) (page : Page) (w : World) :
  highScore (st w) <= highScore (st (afterPipes now rnd page w))
  /\ (countersOk (st w) -> countersOk (st (afterPipes now rnd page w))).
Proof.
  unfold afterPipes, countersOk.
  set (w5 := afterPhysics now w).
  set (w6 := if spawnDue now (st w5) then _ else _).
  assert (H6 : score (st w6) = score (st w)
               /\ highScore (st w6) = highScore (st w)).
  { subst w6. destruct (spawnDue now (st w5)); split; reflexivity. }
  destruct H6 as [Hs Hh].
  destruct (updatePipes_highScore (frameStep now w) page w6)
    as (Hmono & Hsc & Hinv).
  rewrite Hs, Hh in *. split; [exact Hmono|].
  intros [H0 Hle]. split; [lra|auto].
Qed.

Lemma gameLoop_counters (now rnd : Q) (page : Page) (w : World) :
  highScore (st w) <= highScore (st (gameLoop now rnd page w))
  /\ (countersOk (st w) -> countersOk (st (gameLoop now rnd page w))).
Proof.
  destruct (gameState (st w)) eqn:Egs;
    try (rewrite gameLoop_idle by congruence; split; [lra|auto]).
  rewrite (gameLoop_playing now rnd page w Egs). cbv zeta.
  destruct (afterPipes_counters now rnd page w) as [Hmono Hinv].
  destruct (hasCollision page (afterPipes now rnd page w)).
  - rewrite endGame_st. split; [exact Hmono|exact Hinv].
  - rewrite requestAnimationFrame_st. split; [exact Hmono|exact Hinv].
Qed.

Lemma startPlaying_counters (page : Page) (w : World) :
  highScore (st (startPlaying page w)) = highScore (st w)
  /\ (countersOk (st w) -> countersOk (st (startPlaying page w))).
Proof.
  destruct (gameState (st w)) eqn:Egs.
  - destruct (startPlaying_restart_st page w) as [id Hst]; [congruence|].
    rewrite Hst, resetGameState_st. unfold countersOk. cbn.
    split; [reflexivity|]. intros [H0 Hle]. split; lra.
  - unfold startPlaying. rewrite Egs. split; [reflexivity|auto].
  - destruct (startPlaying_restart_st page w) as [id Hst]; [congruence|].
    rewrite Hst, resetGameState_st. unfold countersOk. cbn.
    split; [reflexivity|]. intros [H0 Hle]. split; lra.
Qed.

Lemma step_counters (e : Event) (w : World) :
  highScore (st w) <= highScore (st (step e w))
  /\ (countersOk (st w) -> countersOk (st (step e w))).
Proof.
  destruct e as [event page|now rnd page|page]; cbn [step].
  - assert (Hsp := startPlaying_counters page w).
    destruct Hsp as [Hh Hinv].
    destruct event as [code| |]; cbn [handleInput];
      try destruct (String.eqb code "Space");
      try (rewrite Hh; split; [lra|exact Hinv]);
      split; [lra|auto].
  - destruct (pendingFrames w) as [|id later]; [split; [lra|auto]|].
    apply (gameLoop_counters now rnd page (with_pendingFrames later w)).
  - unfold onResize.
    destruct (gameState (st w)); split; try (cbn; lra); auto.
Qed.

Lemma run_counters (es : list Event) :
  forall w,
    highScore (st w) <= highScore (st (run es w))
    /\ (countersOk (st w) -> countersOk (st (run es w))).
Proof.
  unfold run.
  induction es as [|e rest IH]; intros w; cbn [fold_left].
  - split; [lra|auto].
  - destruct (step_counters e w) as [Hh Hinv].
    destruct (IH (step e w)) as [Hh' Hinv'].
    split; [lra|auto].
Qed.

Lemma init_counters (page : Page) (stored : Stored) :
  countersOk (st (init page (loadedWorld stored))).
Proof.
  unfold init. rewrite st_updateScoreBoard, st_setOverlay, resetGameState_st.
  unfold countersOk. cbn.
  destruct stored as [| |q]; cbn; try lra.
  destruct (Js.gt q 0) eqn:E; [apply gt_true in E|]; lra.
Qed.

(** C4: a scoring event leaves the score at most the high score, and no
    event (an input, a frame, a resize; hence no scoring, restart or game
    over) lowers the high score, over any run of events; from page load
    on the score never exceeds the high score. *)
Theorem score_bounded_and_high_score_monotone :
  (forall moveBy birdFront pipe w,
      passesNow moveBy birdFront (st w) pipe = true ->
      let w' := snd (advancePipe moveBy birdFront pipe w) in
      score (st w') = score (st w) + 1
      /\ score (st w') <= highScore (st w'))
  /\ (forall e w, highScore (st w) <= highScore (st (step e w)))
  /\ (forall es w, highScore (st w) <= highScore (st (run es w)))
  /\ (forall page stored es,
         score (st (run es (init page (loadedWorld stored))))
         <= highScore (st (run es (init page (loadedWorld stored))))).
Proof.
  split; [|split; [|split]].
  - intros moveBy birdFront pipe w Hpass. cbv zeta.
    destruct (advancePipe_scoring moveBy birdFront pipe w)
      as (_ & _ & _ & _ & _ & Hyes).
    destruct (advancePipe_highScore moveBy birdFront pipe w)
      as (_ & _ & Hle & _).
    split; [apply (Hyes Hpass)|apply (Hle Hpass)].
  - intros e w. apply step_counters.
  - intros es w. apply run_counters.
  - intros page stored es.
    apply (run_counters es (init page (loadedWorld stored))).
    apply init_counters.
Qed.

(** An instance: the first gate passed raises both counters to 1. *)
Lemma score_bounded_and_high_score_monotone_witness :
  let w := playingWith [gateAt 50 false 0] in
  let w' := snd (advancePipe 7.2 124 (gateAt 50 false 0) w) in
  score (st w') == 1 /\ score (st w') <= highScore (st w').
Proof.
  cbv zeta.
  destruct score_bounded_and_high_score_monotone as (Hscore & _).
  destruct (Hscore 7.2 124 (gateAt 50 false 0)
              (playingWith [gateAt 50 false 0]) eq_refl) as [Hs Hle].
  split; [rewrite Hs; reflexivity|exact Hle].
Defined.

(** ** C6: a gate scores once *)

Lemma unscored_nonneg (ps : list Pipe.t) : 0 <= unscored ps.
Proof.
  induction ps as [|pipe rest IH]; cbn [unscored]; [lra|].
  destruct (Pipe.passed pipe); lra.
Qed.

Lemma unscored_filter (f : Pipe.t -> bool) (ps : list Pipe.t) :
  unscored (filter f ps) <= unscored ps.
Proof.
  induction ps as [|pipe rest IH]; cbn [filter unscored]; [lra|].
  destruct (f pipe); cbn [unscored]; destruct (Pipe.passed pipe); lra.
Qed.

(** One call of the callback moves one unit from the unscored gates to
    the score, or nothing. *)
Lemma advancePipe_tally (moveBy birdFront : Q) (pipe : Pipe.t) (w : World) :
  score (st (snd (advancePipe moveBy birdFront pipe w)))
  + unscored [fst (advancePipe moveBy birdFront pipe w)]
  == score (st w) + unscored [pipe].
Proof.
  destruct (advancePipe_scoring moveBy birdFront pipe w)
    as (Hflag & _ & _ & _ & Hno & Hyes).
  cbv zeta in *. cbn [unscored]. rewrite Hflag.
  destruct (passesNow moveBy birdFront (st w) pipe) eqn:Epass.
  - destruct (Hyes eq_refl) as [Hs _]. rewrite Hs.
    unfold passesNow in Epass. apply andb_true_iff in Epass.
    destruct Epass as [Hnp _]. apply negb_true_iff in Hnp.
    rewrite Hnp. cbn [orb]. ring.
  - rewrite (Hno eq_refl), orb_false_r. reflexivity.
Qed.

Lemma forEachPipe_tally (moveBy birdFront : Q) (ps : list Pipe.t) :
  forall w,
    score (st (snd (forEachPipe moveBy birdFront ps w)))
    + unscored (fst (forEachPipe moveBy birdFront ps w))
    == score (st w) + unscored ps.
Proof.
  induction ps as [|pipe rest IH]; intros w; cbn [forEachPipe].
  - reflexivity.
  - forEach_cons advancePipe_tally IH.
    cbn [unscored] in *. lra.
Qed.

Lemma forEachPipe_laterGate (moveBy birdFront : Q) (ps : list Pipe.t) :
  forall w,
    Forall2 laterGate ps (fst (forEachPipe moveBy birdFront ps w)).
Proof.
  induction ps as [|pipe rest IH]; intros w; cbn [forEachPipe].
  - constructor.
  - forEach_cons advancePipe_scoring IH.
    constructor; [|exact IH].
    destruct Hhd as (Hflag & _ & Ht & Hb & _).
    repeat split; try assumption.
    intros Hp. rewrite Hflag, Hp. reflexivity.
Qed.

Lemma laterGate_refl (pipe : Pipe.t) : laterGate pipe pipe.
Proof. repeat split. auto. Qed.

Lemma laterGate_trans (p1 p2 p3 : Pipe.t) :
  laterGate p1 p2 -> laterGate p2 p3 -> laterGate p1 p3.
Proof.
  intros (Ht & Hb & Hf) (Ht' & Hb' & Hf').
  repeat split; try congruence. auto.
Qed.

Lemma Forall2_In_r {A B : Type} (R : A -> B -> Prop) (l : list A)
  (l' : list B) :
  Forall2 R l l' -> forall b, In b l' -> exists a, In a l /\ R a b.
Proof.
  induction 1 as [|a b0 l l' Hab _ IH]; intros b Hin; [destruct Hin|].
  destruct Hin as [->|Hin].
  - exists a. split; [now left|exact Hab].
  - destruct (IH b Hin) as (a' & Ha' & HR).
    exists a'. split; [now right|exact HR].
Qed.

(** One [updatePipes]: the score and the unscored gates together do not
    grow, the score does not fall, and a gate still there is a gate that
    was there. *)
Lemma updatePipes_tally (deltaSec : Q) (page : Page) (w : World) :
  score (st (updatePipes deltaSec page w))
  + unscored (pipes (st (updatePipes deltaSec page w)))
  <= score (st w) + unscored (pipes (st w))
  /\ score (st w) <= score (st (updatePipes deltaSec page w))
  /\ (forall pipe',
         In pipe' (pipes (st (updatePipes deltaSec page w))) ->
         exists pipe, In pipe (pipes (st w)) /\ laterGate pipe pipe').
Proof.
  rewrite updatePipes_pipes.
  destruct (updatePipes_counters deltaSec page w) as [Hs _].
  cbv zeta in Hs. rewrite Hs.
  set (moveBy := pipeSpeed (st w) * 60 * deltaSec).
  set (birdFront := birdX (st w) + birdWidth (getSizes page)).
  pose proof (forEachPipe_tally moveBy birdFront (pipes (st w)) w) as Ht.
  pose proof (unscored_filter (visible (st w))
                (fst (forEachPipe moveBy birdFront (pipes (st w)) w)))
    as Hf.
  destruct (forEachPipe_highScore moveBy birdFront (pipes (st w)) w)
    as (_ & Hmono & _).
  cbv zeta in Hmono.
  split; [lra|]. split; [exact Hmono|].
  intros pipe' Hin. apply filter_In in Hin. destruct Hin as [Hin _].
  eapply Forall2_In_r; [apply forEachPipe_laterGate|exact Hin].
Qed.

Lemma evaluateMany_tally (frames : list (Q * Page)) :
  forall w,
    score (st (evaluateMany frames w))
    + unscored (pipes (st (evaluateMany frames w)))
    <= score (st w) + unscored (pipes (st w))
    /\ score (st w) <= score (st (evaluateMany frames w))
    /\ (forall pipe',
           In pipe' (pipes (st (evaluateMany frames w))) ->
           exists pipe, In pipe (pipes (st w)) /\ laterGate pipe pipe').
Proof.
  unfold evaluateMany.
  induction frames as [|[deltaSec page] rest IH]; intros w;
    cbn [fold_left fst snd].
  - split; [lra|]. split; [lra|].
    intros pipe' Hin. exists pipe'. split; [exact Hin|].
    apply laterGate_refl.
  - destruct (updatePipes_tally deltaSec page w) as (Ht & Hm & Hg).
    destruct (IH (updatePipes deltaSec page w)) as (Ht' & Hm' & Hg').
    split; [lra|]. split; [lra|].
    intros pipe' Hin.
    destruct (Hg' pipe' Hin) as (mid & Hmid & Hlater').
    destruct (Hg mid Hmid) as (pipe & Hpipe & Hlater).
    exists pipe. split; [exact Hpipe|].
    eapply laterGate_trans; eassumption.
Qed.

Lemma unscored_all_passed (ps : list Pipe.t) :
  Forall (fun pipe => Pipe.passed pipe = true) ps -> unscored ps == 0.
Proof.
  intros H. induction H as [|pipe rest Hp _ IH]; cbn [unscored].
  - reflexivity.
  - rewrite Hp, IH. reflexivity.
Qed.

(** C6: a call of the scoring callback on a gate whose flag is set
    changes nothing, and a call raises the score only by 1 and only while
    it sets the flag; the flag, once set, stays set.  Over any number of
    [updatePipes] calls the score and the number of unflagged gates
    together never grow, so each gate adds to the score at most once, and
    when every gate is flagged the score stays as it is. *)
Theorem gate_scores_at_most_once :
  (forall moveBy birdFront pipe w,
      let pipe' := fst (advancePipe moveBy birdFront pipe w) in
      let w' := snd (advancePipe moveBy birdFront pipe w) in
      laterGate pipe pipe'
      /\ (Pipe.passed pipe = true -> w' = w)
      /\ (w' = w
          \/ (Pipe.passed pipe = false /\ Pipe.passed pipe' = true
              /\ score (st w') = score (st w) + 1)))
  /\ (forall frames w,
         let w' := evaluateMany frames w in
         score (st w) <= score (st w')
         /\ score (st w') + unscored (pipes (st w'))
            <= score (st w) + unscored (pipes (st w))
         /\ (forall pipe',
                In pipe' (pipes (st w')) ->
                exists pipe, In pipe (pipes (st w)) /\ laterGate pipe pipe'))
  /\ (forall frames w,
         Forall (fun pipe => Pipe.passed pipe = true) (pipes (st w)) ->
         score (st (evaluateMany frames w)) == score (st w)).
Proof.
  split; [|split].
  - intros moveBy birdFront pipe w. cbv zeta.
    destruct (advancePipe_scoring moveBy birdFront pipe w)
      as (Hflag & _ & Ht & Hb & Hno & Hyes).
    cbv zeta in *.
    assert (Hset : Pipe.passed pipe = true ->
                   passesNow moveBy birdFront (st w) pipe = false).
    { intros Hp. unfold passesNow. now rewrite Hp. }
    split; [|split].
    + repeat split; try assumption.
      intros Hp. rewrite Hflag, Hp. reflexivity.
    + intros Hp. apply Hno. now apply Hset.
    + destruct (passesNow moveBy birdFront (st w) pipe) eqn:Epass.
      * right. destruct (Pipe.passed pipe) eqn:Ep.
        { specialize (Hset eq_refl). discriminate. }
        split; [reflexivity|]. split; [now rewrite Hflag|].
        apply (Hyes eq_refl).
      * left. now apply Hno.
  - intros frames w. cbv zeta.
    destruct (evaluateMany_tally frames w) as (Ht & Hm & Hg).
    split; [exact Hm|]. split; [exact Ht|exact Hg].
  - intros frames w Hall.
    destruct (evaluateMany_tally frames w) as (Ht & Hm & _).
    pose proof (unscored_all_passed _ Hall) as H0.
    pose proof (unscored_nonneg (pipes (st (evaluateMany frames w)))).
    lra.
Qed.

(** An instance: three more passes over a flagged gate leave score 1. *)
Lemma gate_scores_at_most_once_witness :
  let w := onState (set_score 1) (playingWith [gateAt 50 true 0]) in
  score (st (evaluateMany [(0.05, demoPage); (0.016, demoPage);
                           (0.05, demoPage)] w)) == 1.
Proof.
  cbv zeta.
  destruct gate_scores_at_most_once as (_ & _ & Hdone).
  rewrite Hdone; [reflexivity|].
  repeat constructor.
Defined.

(** ** C8: the order and the life cycle of gates *)

(** C8 (as stated, refuted): with two gates in play the older one, at
    x = 385.6, is left of the newer one, at x = 392.8; the positions are
    not non-increasing in insertion order. *)
Lemma gates_not_nonincreasing_example :
  gameState (st twoGateRun) = playing
  /\ (exists older newer,
         pipes (st twoGateRun) = [older; newer]
         /\ elId (Pipe.topEl older) = 0%nat
         /\ elId (Pipe.topEl newer) = 2%nat
         /\ Pipe.x older == 385.6 /\ Pipe.x newer == 392.8)
  /\ ~ oldestRightmost (pipes (st twoGateRun)).
Proof.
  assert (E : exists older newer,
             pipes (st twoGateRun) = [older; newer]
             /\ elId (Pipe.topEl older) = 0%nat
             /\ elId (Pipe.topEl newer) = 2%nat
             /\ Pipe.x older == 385.6 /\ Pipe.x newer == 392.8).
  { eexists. eexists. split; [vm_compute; reflexivity|].
    repeat split; reflexivity. }
  split; [reflexivity|]. split; [exact E|].
  destruct E as (older & newer & Hps & _ & _ & Hold & Hnew).
  rewrite Hps. intros Hsorted.
  apply StronglySorted_inv in Hsorted. destruct Hsorted as [_ Hall].
  apply Forall_inv in Hall. rewrite Hold, Hnew in Hall.
  revert Hall. vm_compute. intros H. apply H. reflexivity.
Qed.

(** *** Order *)

Lemma forEachPipe_positions (moveBy birdFront : Q) (ps : list Pipe.t) :
  forall w,
    map Pipe.x (fst (forEachPipe moveBy birdFront ps w))
    = map (fun pipe => Pipe.x pipe - moveBy) ps.
Proof.
  induction ps as [|pipe rest IH]; intros w; cbn [forEachPipe].
  - reflexivity.
  - forEach_cons advancePipe_scoring IH.
    destruct Hhd as (_ & Hx & _).
    cbn [map]. now rewrite Hx, IH.
Qed.

(** Order is a matter of the positions only. *)
Lemma oldestLeftmost_positions (ps : list Pipe.t) :
  oldestLeftmost ps <-> StronglySorted Qle (map Pipe.x ps).
Proof.
  unfold oldestLeftmost.
  induction ps as [|pipe rest IH]; cbn [map].
  - split; constructor.
  - split; intros H; apply StronglySorted_inv in H; destruct H as [Hs Ha];
      constructor; try (now apply IH).
    + rewrite Forall_map. exact Ha.
    + rewrite Forall_map in Ha. exact Ha.
Qed.

Lemma sorted_shift (moveBy : Q) (xs : list Q) :
  StronglySorted Qle xs ->
  StronglySorted Qle (map (fun v => v - moveBy) xs).
Proof.
  induction 1 as [|v rest _ IH Hall]; cbn [map]; constructor.
  - exact IH.
  - rewrite Forall_map. eapply Forall_impl; [|exact Hall].
    cbn. intros u Hu. lra.
Qed.

Lemma sorted_snoc (xs : list Q) (v : Q) :
  StronglySorted Qle xs -> Forall (fun u => u <= v) xs ->
  StronglySorted Qle (xs ++ [v]).
Proof.
  induction 1 as [|u rest _ IH Hall]; intros Hle; cbn [app].
  - repeat constructor.
  - apply Forall_cons_iff in Hle. destruct Hle as [Hu Hrest].
    constructor; [now apply IH|].
    apply Forall_app. split; [exact Hall|]. now constructor.
Qed.

Lemma oldestLeftmost_filter (f : Pipe.t -> bool) (ps : list Pipe.t) :
  oldestLeftmost ps -> oldestLeftmost (filter f ps).
Proof.
  unfold oldestLeftmost.
  induction 1 as [|pipe rest _ IH Hall]; cbn [filter]; [constructor|].
  destruct (f pipe); [|exact IH].
  constructor; [exact IH|].
  rewrite Forall_forall in *. intros q Hq.
  apply filter_In in Hq. now apply Hall.
Qed.

(** The filter of [updatePipes] keeps a gate once it keeps one to its
    left. *)
Lemma visible_monotone (s : State) (p q : Pipe.t) :
  Pipe.x p <= Pipe.x q -> visible s p = true -> visible s q = true.
Proof.
  unfold visible. rewrite !gt_true. intros Hle Hp. lra.
Qed.

(** On gates in order, a filter that is monotone in the position drops a
    prefix. *)
Lemma filter_drops_prefix (f : Pipe.t -> bool) (ps : list Pipe.t) :
  (forall p q, Pipe.x p <= Pipe.x q -> f p = true -> f q = true) ->
  oldestLeftmost ps ->
  exists k, filter f ps = skipn k ps.
Proof.
  intros Hmono. unfold oldestLeftmost.
  induction 1 as [|pipe rest _ IH Hall]; cbn [filter].
  - exists 0%nat. reflexivity.
  - destruct (f pipe) eqn:Ef.
    + exists 0%nat. cbn [skipn]. f_equal.
      apply forallb_filter_id. apply forallb_forall.
      rewrite Forall_forall in Hall.
      intros q Hq. apply (Hmono pipe q); [now apply Hall|exact Ef].
    + destruct IH as [k Hk]. exists (S k). exact Hk.
Qed.

Lemma advancedPipes_order (W deltaSec : Q) (page : Page) (w : World) :
  0 <= deltaSec -> gatesInOrder W (st w) ->
  oldestLeftmost (advancedPipes deltaSec page w)
  /\ Forall (fun pipe => Pipe.x pipe <= W) (advancedPipes deltaSec page w).
Proof.
  intros Hd (Hsorted & Hedge & Hspeed).
  assert (Hmove : 0 <= pipeSpeed (st w) * 60 * deltaSec) by nra.
  pose proof (forEachPipe_positions (pipeSpeed (st w) * 60 * deltaSec)
                (birdX (st w) + birdWidth (getSizes page))
                (pipes (st w)) w) as Hpos.
  fold (advancedPipes deltaSec page w) in Hpos.
  split.
  - apply oldestLeftmost_positions. rewrite Hpos.
    rewrite <- (map_map Pipe.x
                  (fun v => v - pipeSpeed (st w) * 60 * deltaSec)).
    apply sorted_shift. now apply oldestLeftmost_positions.
  - rewrite <- (Forall_map Pipe.x (fun v => v <= W)), Hpos.
    rewrite Forall_map. eapply Forall_impl; [|exact Hedge].
    cbn. intros pipe Hle. lra.
Qed.

Lemma updatePipes_order (W deltaSec : Q) (page : Page) (w : World) :
  0 <= deltaSec -> gatesInOrder W (st w) ->
  gatesInOrder W (st (updatePipes deltaSec page w)).
Proof.
  intros Hd Hinv.
  destruct (advancedPipes_order W deltaSec page w Hd Hinv) as [Hs He].
  destruct Hinv as (_ & _ & Hspeed).
  unfold gatesInOrder. rewrite updatePipes_pipes.
  fold (advancedPipes deltaSec page w).
  split; [now apply oldestLeftmost_filter|]. split.
  - rewrite Forall_forall in *. intros pipe Hin.
    apply filter_In in Hin. now apply He.
  - destruct (updatePipes_fields deltaSec page w) as (_ & Ht & _).
    unfold tuning in Ht. injection Ht as _ _ Hsp _ _ _ _.
    now rewrite Hsp.
Qed.

Lemma createPipe_order (W now rnd : Q) (page : Page) (w : World) :
  gameWidth (getSizes page) == W -> gatesInOrder W (st w) ->
  gatesInOrder W (st (createPipe now rnd page w)).
Proof.
  intros HW (Hsorted & Hedge & Hspeed).
  unfold gatesInOrder. rewrite createPipe_pipes.
  destruct (newPipe_fields rnd page w) as (Hx & _).
  split; [|split].
  - apply oldestLeftmost_positions. rewrite map_app. cbn [map].
    apply sorted_snoc; [now apply oldestLeftmost_positions|].
    rewrite Forall_map. eapply Forall_impl; [|exact Hedge].
    cbv beta. intros pipe Hle. rewrite Hx. lra.
  - apply Forall_app. split; [exact Hedge|].
    constructor; [|constructor]. rewrite Hx. lra.
  - exact Hspeed.
Qed.

Lemma frameStep_nonneg (now : Q) (w : World) :
  lastFrameTime (st w) <= now -> 0 <= frameStep now w.
Proof.
  intros Hle. unfold frameStep, deltaSecOf.
  apply Q.min_glb; [|lra].
  apply Qle_shift_div_l; [reflexivity|].
  destruct (Js.not (lastFrameTime (st w)));
    cbn [lastFrameTime set_lastFrameTime]; lra.
Qed.

Lemma gameLoop_order (W now rnd : Q) (page : Page) (w : World) :
  gameWidth (getSizes page) == W -> lastFrameTime (st w) <= now ->
  gatesInOrder W (st w) -> gatesInOrder W (st (gameLoop now rnd page w)).
Proof.
  intros HW Htime Hinv.
  destruct (gameState (st w)) eqn:Egs;
    try (rewrite gameLoop_idle by congruence; exact Hinv).
  rewrite (gameLoop_playing now rnd page w Egs). cbv zeta.
  assert (Hmid : gatesInOrder W (st (afterPipes now rnd page w))).
  { unfold afterPipes.
    apply updatePipes_order; [now apply frameStep_nonneg|].
    destruct (spawnDue now (st (afterPhysics now w))).
    - apply createPipe_order; [exact HW|exact Hinv].
    - exact Hinv. }
  destruct (hasCollision page (afterPipes now rnd page w)).
  - rewrite endGame_st. exact Hmid.
  - rewrite requestAnimationFrame_st. exact Hmid.
Qed.

Lemma startPlaying_order (W : Q) (page : Page) (w : World) :
  gatesInOrder W (st w) -> gatesInOrder W (st (startPlaying page w)).
Proof.
  intros (Hsorted & Hedge & Hspeed).
  destruct (gameState (st w)) eqn:Egs.
  - destruct (startPlaying_restart_st page w) as [id Hst]; [congruence|].
    rewrite Hst, resetGameState_st.
    split; [constructor|]. split; [constructor|exact Hspeed].
  - unfold startPlaying. rewrite Egs. repeat split; assumption.
  - destruct (startPlaying_restart_st page w) as [id Hst]; [congruence|].
    rewrite Hst, resetGameState_st.
    split; [constructor|]. split; [constructor|exact Hspeed].
Qed.

Lemma step_order (W : Q) (e : Event) (w : World) :
  steadyEvent W e w -> gatesInOrder W (st w) ->
  gatesInOrder W (st (step e w)).
Proof.
  destruct e as [event page|now rnd page|page]; cbn [step steadyEvent].
  - intros _ Hinv.
    destruct event as [code| |]; cbn [handleInput];
      try destruct (String.eqb code "Space");
      try exact Hinv; now apply startPlaying_order.
  - intros [HW Htime] Hinv.
    destruct (pendingFrames w) as [|id later]; [exact Hinv|].
    apply gameLoop_order; assumption.
  - intros _ Hinv. unfold onResize.
    destruct (gameState (st w)); exact Hinv.
Qed.

Lemma run_order (W : Q) (es : list Event) :
  forall w,
    steadyRun W es w -> gatesInOrder W (st w) ->
    gatesInOrder W (st (run es w)).
Proof.
  unfold run.
  induction es as [|e rest IH]; intros w Hsteady Hinv; cbn [fold_left].
  - exact Hinv.
  - destruct Hsteady as [He Hrest].
    apply IH; [exact Hrest|]. now apply step_order.
Qed.

Lemma init_order (W : Q) (page : Page) (stored : Stored) :
  gatesInOrder W (st (init page (loadedWorld stored))).
Proof.
  unfold init.
  rewrite st_updateScoreBoard, st_setOverlay, resetGameState_st.
  split; [constructor|]. split; [constructor|].
  cbn. lra.
Qed.

(** *** Identity *)

Lemma removeAll_created (ps : list Pipe.t) :
  forall acc,
    created (fold_left
               (fun acc pipe => removeEl (Pipe.bottomEl pipe)
                                  (removeEl (Pipe.topEl pipe) acc))
               ps acc) = created acc.
Proof.
  induction ps as [|pipe rest IH]; intros acc; cbn [fold_left].
  - reflexivity.
  - now rewrite IH.
Qed.

Lemma startPlaying_created (page : Page) (w : World) :
  created (startPlaying page w) = created w.
Proof.
  unfold startPlaying.
  destruct (gameState (st w)); try reflexivity;
    cbn; rewrite removeAll_created; reflexivity.
Qed.

(** Where the gates after a frame come from: each is a gate that was
    there, or the one gate the frame created, whose element is new. *)
Lemma gameLoop_gates (now rnd : Q) (page : Page) (w : World) :
  (created w <= created (gameLoop now rnd page w))%nat
  /\ forall pipe',
       In pipe' (pipes (st (gameLoop now rnd page w))) ->
       (exists pipe, In pipe (pipes (st w)) /\ laterGate pipe pipe')
       \/ (elId (Pipe.topEl pipe') = created w
           /\ (created w < created (gameLoop now rnd page w))%nat).
Proof.
  destruct (gameState (st w)) eqn:Egs;
    try (rewrite gameLoop_idle by congruence; split; [lia|];
         intros pipe' Hin; left; exists pipe'; split;
         [exact Hin|apply laterGate_refl]).
  destruct (gameLoop_spawn now rnd page w Egs) as (Hc & _).
  split; [rewrite Hc; destruct (spawnDue now (st w)); lia|].
  rewrite Hc. clear Hc.
  rewrite (gameLoop_playing now rnd page w Egs). cbv zeta.
  assert (Hpipes : forall pipe',
             In pipe' (pipes (st (afterPipes now rnd page w))) ->
             (exists pipe, In pipe (pipes (st w)) /\ laterGate pipe pipe')
             \/ (elId (Pipe.topEl pipe') = created w
                 /\ (created w
                     < (if spawnDue now (st w)
                        then S (S (created w)) else created w))%nat)).
  { unfold afterPipes. intros pipe' Hin.
    apply updatePipes_tally in Hin.
    destruct Hin as (pipe & Hin & Hlater).
    change (spawnDue now (st (afterPhysics now w)))
      with (spawnDue now (st w)) in Hin.
    destruct (spawnDue now (st w)).
    - rewrite createPipe_pipes in Hin. apply in_app_or in Hin.
      destruct Hin as [Hin|[Hnew|[]]].
      + left. exists pipe. split; [exact Hin|exact Hlater].
      + right. subst pipe. destruct Hlater as (Hid & _).
        destruct (newPipe_fields rnd page (afterPhysics now w))
          as (_ & _ & _ & _ & _ & _ & _ & Htop & _).
        rewrite Hid, Htop. split; [reflexivity|lia].
    - left. exists pipe. split; [exact Hin|exact Hlater]. }
  destruct (hasCollision page (afterPipes now rnd page w)).
  - rewrite endGame_st. exact Hpipes.
  - rewrite requestAnimationFrame_st. exact Hpipes.
Qed.

Lemma startPlaying_gates (page : Page) (w : World) :
  forall pipe',
    In pipe' (pipes (st (startPlaying page w))) -> In pipe' (pipes (st w)).
Proof.
  intros pipe'. destruct (gameState (st w)) eqn:Egs.
  - destruct (startPlaying_restart_st page w) as [id Hst]; [congruence|].
    rewrite Hst, resetGameState_st. intros [].
  - unfold startPlaying. rewrite Egs. auto.
  - destruct (startPlaying_restart_st page w) as [id Hst]; [congruence|].
    rewrite Hst, resetGameState_st. intros [].
Qed.

Lemma step_gates (e : Event) (w : World) :
  (created w <= created (step e w))%nat
  /\ forall pipe',
       In pipe' (pipes (st (step e w))) ->
       (exists pipe, In pipe (pipes (st w)) /\ laterGate pipe pipe')
       \/ (elId (Pipe.topEl pipe') = created w
           /\ (created w < created (step e w))%nat).
Proof.
  assert (Hsame : forall w' : World,
             created w' = created w ->
             (forall pipe', In pipe' (pipes (st w')) ->
                            In pipe' (pipes (st w))) ->
             (created w <= created w')%nat
             /\ forall pipe',
                  In pipe' (pipes (st w')) ->
                  (exists pipe, In pipe (pipes (st w))
                                /\ laterGate pipe pipe')
                  \/ (elId (Pipe.topEl pipe') = created w
                      /\ (created w < created w')%nat)).
  { intros w' Hc Hsub. split; [lia|].
    intros pipe' Hin. left. exists pipe'.
    split; [now apply Hsub|apply laterGate_refl]. }
  assert (Hid := Hsame w eq_refl (fun _ H => H)).
  destruct e as [event page|now rnd page|page]; cbn [step].
  - assert (Hsp := Hsame (startPlaying page w)
                     (startPlaying_created page w)
                     (startPlaying_gates page w)).
    destruct event as [code| |]; cbn [handleInput];
      try destruct (String.eqb code "Space"); assumption.
  - destruct (pendingFrames w) as [|id later]; [exact Hid|].
    apply (gameLoop_gates now rnd page (with_pendingFrames later w)).
  - unfold onResize. destruct (gameState (st w)); try exact Hid;
      apply Hsame; auto.
Qed.

(** An element that exists and is not a gate in play does not become
    one. *)
Lemma step_no_return (e : Event) (w : World) (id : nat) :
  (id < created w)%nat -> ~ In id (gateIds w) ->
  (id < created (step e w))%nat /\ ~ In id (gateIds (step e w)).
Proof.
  intros Hold Hout. destruct (step_gates e w) as [Hc Hg].
  split; [lia|]. intros Hin.
  unfold gateIds in Hin. apply in_map_iff in Hin.
  destruct Hin as (pipe' & Hid & Hin).
  destruct (Hg pipe' Hin) as [(pipe & Hpipe & Hlater)|[Hnew _]].
  - apply Hout. unfold gateIds. apply in_map_iff.
    exists pipe. split; [|exact Hpipe].
    destruct Hlater as (Htop & _). congruence.
  - lia.
Qed.

Lemma run_no_return (es : list Event) :
  forall w id,
    (id < created w)%nat -> ~ In id (gateIds w) ->
    ~ In id (gateIds (run es w)).
Proof.
  unfold run.
  induction es as [|e rest IH]; intros w id Hold Hout; cbn [fold_left].
  - exact Hout.
  - destruct (step_no_return e w id Hold Hout) as [Hold' Hout'].
    now apply IH.
Qed.

Lemma step_gatesCreated (e : Event) (w : World) :
  gatesCreated w -> gatesCreated (step e w).
Proof.
  unfold gatesCreated. intros Hall.
  destruct (step_gates e w) as [Hc Hg].
  rewrite Forall_forall in *. intros id Hin.
  unfold gateIds in Hin. apply in_map_iff in Hin.
  destruct Hin as (pipe' & Hid & Hin). subst id.
  destruct (Hg pipe' Hin) as [(pipe & Hpipe & Hlater)|[Hnew Hlt]].
  - destruct Hlater as (Htop & _). rewrite Htop.
    assert (Hb : (elId (Pipe.topEl pipe) < created w)%nat).
    { apply Hall. unfold gateIds. apply in_map_iff. now exists pipe. }
    lia.
  - lia.
Qed.

Lemma run_gatesCreated (es : list Event) :
  forall w, gatesCreated w -> gatesCreated (run es w).
Proof.
  unfold run.
  induction es as [|e rest IH]; intros w Hall; cbn [fold_left].
  - exact Hall.
  - apply IH. now apply step_gatesCreated.
Qed.

Lemma init_gatesCreated (page : Page) (stored : Stored) :
  gatesCreated (init page (loadedWorld stored)).
Proof.
  unfold gatesCreated, gateIds, init.
  rewrite st_updateScoreBoard, st_setOverlay, resetGameState_st.
  constructor.
Qed.

(** *** First in, first out *)

Lemma updatePipes_drops_prefix (deltaSec : Q) (page : Page) (w : World) :
  oldestLeftmost (pipes (st w)) ->
  exists k,
    pipes (st (updatePipes deltaSec page w))
    = skipn k (advancedPipes deltaSec page w).
Proof.
  intros Hsorted. rewrite updatePipes_pipes.
  fold (advancedPipes deltaSec page w).
  apply filter_drops_prefix; [apply visible_monotone|].
  apply oldestLeftmost_positions. unfold advancedPipes.
  rewrite forEachPipe_positions.
  rewrite <- (map_map Pipe.x
                (fun v => v - pipeSpeed (st w) * 60 * deltaSec)).
  apply sorted_shift. now apply oldestLeftmost_positions.
Qed.

Lemma gameLoop_pipes (now rnd : Q) (page : Page) (w : World) :
  gameState (st w) = playing ->
  pipes (st (gameLoop now rnd page w))
  = pipes (st (afterPipes now rnd page w)).
Proof.
  intros Hplay. rewrite (gameLoop_playing now rnd page w Hplay).
  cbv zeta.
  destruct (hasCollision page (afterPipes now rnd page w));
    generalize (afterPipes now rnd page w); intros w7.
  - now rewrite endGame_st.
  - reflexivity.
Qed.

(** A frame of a session in play on gates in order, the field at width
    [W]: the pipes it leaves are the pipes [updatePipes] advanced, less a
    prefix. *)
Lemma gameLoop_drops_prefix (W now rnd : Q) (page : Page) (w : World) :
  gameState (st w) = playing ->
  gameWidth (getSizes page) == W -> gatesInOrder W (st w) ->
  exists k,
    pipes (st (gameLoop now rnd page w))
    = skipn k (advancedPipes (frameStep now w) page
                 (afterSpawn now rnd page w)).
Proof.
  intros Hplay HW Hinv.
  rewrite (gameLoop_pipes now rnd page w Hplay).
  change (afterPipes now rnd page w)
    with (updatePipes (frameStep now w) page (afterSpawn now rnd page w)).
  apply updatePipes_drops_prefix.
  unfold afterSpawn. cbv zeta.
  assert (H5 : gatesInOrder W (st (afterPhysics now w))) by exact Hinv.
  revert H5. generalize (afterPhysics now w). intros w5 H5.
  destruct (spawnDue now (st w5)); [|apply H5].
  apply (createPipe_order W now rnd page w5 HW H5).
Qed.

(** Without the condition on the field's width the order and the prefix
    are lost: in [resizedRun] the gate created on the narrowed field (the
    elements 2 and 3, at x = -74.4) is left of the older gate (the
    elements 0 and 1, at x = -10.4), and the next frame evicts the newer
    gate and keeps the older one. *)
Lemma resize_breaks_fifo_example :
  gameState (st resizedRun) = playing
  /\ gateIds resizedRun = [0; 2]%nat
  /\ ~ oldestLeftmost (pipes (st resizedRun))
  /\ gateIds (gameLoop 3900 0.5 narrowPage resizedRun) = [0]%nat
  /\ ~ (exists k,
          pipes (st (gameLoop 3900 0.5 narrowPage resizedRun))
          = skipn k (advancedPipes (frameStep 3900 resizedRun) narrowPage
                       (afterSpawn 3900 0.5 narrowPage resizedRun))).
Proof.
  assert (Hbefore : exists older newer,
             pipes (st resizedRun) = [older; newer]
             /\ Pipe.x older == -10.4 /\ Pipe.x newer == -74.4).
  { eexists. eexists. split; [vm_compute; reflexivity|].
    split; vm_compute; reflexivity. }
  assert (Hadv : exists older newer,
             advancedPipes (frameStep 3900 resizedRun) narrowPage
               (afterSpawn 3900 0.5 narrowPage resizedRun)
             = [older; newer]
             /\ elId (Pipe.topEl newer) = 2%nat).
  { eexists. eexists. split; vm_compute; reflexivity. }
  assert (Hkept : exists kept,
             pipes (st (gameLoop 3900 0.5 narrowPage resizedRun)) = [kept]
             /\ elId (Pipe.topEl kept) = 0%nat).
  { eexists. split; vm_compute; reflexivity. }
  split; [vm_compute; reflexivity|]. split; [vm_compute; reflexivity|].
  split; [|split; [vm_compute; reflexivity|]].
  - destruct Hbefore as (older & newer & Hps & Hold & Hnew).
    rewrite Hps. intros Hsorted.
    apply StronglySorted_inv in Hsorted. destruct Hsorted as [_ Hall].
    apply Forall_inv in Hall. rewrite Hold, Hnew in Hall.
    revert Hall. vm_compute. intros H. apply H. reflexivity.
  - destruct Hadv as (older & newer & Hps & Hnew).
    destruct Hkept as (kept & Hk1 & Hid).
    rewrite Hps, Hk1. intros [k Hk].
    destruct k as [|[|k]].
    + discriminate Hk.
    + injection Hk as Heq. subst kept. congruence.
    + destruct k; discriminate Hk.
Qed.

(** C8 (amended): eviction is final: an element that is no longer a gate
    in play never becomes one again.  From page load on, as long as
    frames see the field at one width and time stamps do not run
    backwards, the positions of the gates in play are non-decreasing in
    insertion order (the oldest gate is leftmost) and eviction is first
    in, first out: every frame's eviction drops a prefix of the gates,
    the oldest ones.  (Whenever the gates are in that order, a call of
    [updatePipes] drops a prefix of them.) *)
Theorem gates_fifo_oldest_leftmost :
  (forall es w id,
      (id < created w)%nat -> ~ In id (gateIds w) ->
      ~ In id (gateIds (run es w)))
  /\ (forall deltaSec page w,
         oldestLeftmost (pipes (st w)) ->
         exists k,
           pipes (st (updatePipes deltaSec page w))
           = skipn k (advancedPipes deltaSec page w))
  /\ (forall W page stored es,
         steadyRun W es (init page (loadedWorld stored)) ->
         oldestLeftmost (pipes (st (run es (init page (loadedWorld stored)))))
         /\ gatesCreated (run es (init page (loadedWorld stored)))
         /\ (forall now rnd page' later,
                gameState (st (run es (init page (loadedWorld stored))))
                = playing ->
                steadyEvent W (AnimationFrame now rnd page')
                  (run es (init page (loadedWorld stored))) ->
                exists k,
                  pipes (st (gameLoop now rnd page'
                               (with_pendingFrames later
                                  (run es (init page (loadedWorld stored))))))
                  = skipn k
                      (advancedPipes
                         (frameStep now
                            (run es (init page (loadedWorld stored))))
                         page'
                         (afterSpawn now rnd page'
                            (with_pendingFrames later
                               (run es
                                  (init page (loadedWorld stored)))))))).
Proof.
  split; [|split].
  - intros es w id. apply run_no_return.
  - intros deltaSec page w. apply updatePipes_drops_prefix.
  - intros W page stored es Hsteady.
    pose proof (run_order W es (init page (loadedWorld stored)) Hsteady
                  (init_order W page stored)) as Hinv.
    pose proof (run_gatesCreated es (init page (loadedWorld stored))
                  (init_gatesCreated page stored)) as Hcreated.
    revert Hinv Hcreated.
    generalize (run es (init page (loadedWorld stored))).
    intros w Hinv Hcreated.
    split; [apply Hinv|]. split; [exact Hcreated|].
    intros now rnd page' later Hplay [HW _].
    apply (gameLoop_drops_prefix W now rnd page'
             (with_pendingFrames later w) Hplay HW Hinv).
Qed.

(** An instance: the two gates of [twoGateRun] are in order, the next
    frame drops a prefix of them, and the elements of an evicted gate
    stay out of play. *)
Lemma gates_fifo_oldest_leftmost_witness :
  oldestLeftmost (pipes (st twoGateRun))
  /\ (exists k,
         pipes (st (gameLoop 2650 0.5 demoPage
                      (with_pendingFrames [] twoGateRun)))
         = skipn k (advancedPipes (frameStep 2650 twoGateRun) demoPage
                      (afterSpawn 2650 0.5 demoPage
                         (with_pendingFrames [] twoGateRun))))
  /\ ~ In 0%nat
       (gateIds (run [AnimationFrame 2650 0.5 demoPage]
                   (with_created 4 (playingWith [gateAt 200 false 1])))).
Proof.
  destruct gates_fifo_oldest_leftmost as (Hgone & _ & Hsteady).
  destruct (Hsteady 400 demoPage noItem
              [Input mousedown demoPage;
               AnimationFrame 1000 0.5 demoPage;
               AnimationFrame 1050 0.5 demoPage;
               AnimationFrame 2600 0.5 demoPage])
    as (Hordered & _ & Hfifo).
  { cbn [steadyRun steadyEvent].
    repeat split; try reflexivity; vm_compute; discriminate. }
  split; [exact Hordered|]. split.
  - apply (Hfifo 2650 0.5 demoPage []).
    + vm_compute. reflexivity.
    + split; [reflexivity|vm_compute; discriminate].
  - apply Hgone.
    + vm_compute. lia.
    + vm_compute. intros [H|[]]. discriminate.
Defined.

(** * The page around the simulation *)

(** ** Induction over the events of a run *)

Lemma run_snoc (es : list Event) (e : Event) (w : World) :
  run (es ++ [e]) w = step e (run es w).
Proof. unfold run. now rewrite fold_left_app. Qed.

(** What [init] establishes and every event keeps holds in every world
    the page can be in. *)
Lemma reached_invariant (P : World -> Prop) :
  (forall page stored, P (init page (loadedWorld stored))) ->
  (forall e w, P w -> P (step e w)) ->
  forall page stored es, P (reached page stored es).
Proof.
  intros Hinit Hstep page stored es. unfold reached.
  induction es as [|e es IH] using rev_ind.
  - apply Hinit.
  - rewrite run_snoc. now apply Hstep.
Qed.

(** An event is a restart or a jump, a frame on a session in play, a
    resize, or nothing: to keep [P] through every event it is enough to
    keep it through these. *)
Lemma step_cases (P : World -> Prop) (w : World) :
  P w ->
  (forall page, P (startPlaying page w)) ->
  (forall now rnd page later,
      P (gameLoop now rnd page (with_pendingFrames later w))) ->
  (forall page, P (onResize page w)) ->
  forall e, P (step e w).
Proof.
  intros Hsame Hstart Hframe Hresize e.
  destruct e as [event page|now rnd page|page]; cbn [step].
  - destruct event as [code| |]; cbn [handleInput];
      try destruct (String.eqb code "Space"); auto.
  - destruct (pendingFrames w) as [|id later]; auto.
  - apply Hresize.
Qed.

(** ** The pipe pass on the whole world *)

(** [updatePipes] as its two loops. *)
Lemma updatePipes_eq (deltaSec : Q) (page : Page) (w : World) :
  let moved := forEachPipe (pipeSpeed (st w) * 60 * deltaSec)
                 (birdX (st w) + birdWidth (getSizes page))
                 (pipes (st w)) w in
  let w2 := onState (set_pipes (fst moved)) (snd moved) in
  updatePipes deltaSec page w
  = onState (set_pipes (fst (evictPipes (fst moved) w2)))
      (snd (evictPipes (fst moved) w2)).
Proof.
  cbv zeta. unfold updatePipes.
  destruct (forEachPipe _ _ (pipes (st w)) w) as [ps w1].
  cbn [fst snd]. cbn [pipes st onState with_st set_pipes].
  destruct (evictPipes ps _) as [kept w3]. reflexivity.
Qed.

Lemma sameButTally_refl (w : World) : sameButTally w w.
Proof.
  split; [destruct w; reflexivity|apply sameButScores_refl].
Qed.

Lemma sameButTally_trans (w1 w2 w3 : World) :
  sameButTally w1 w2 -> sameButTally w2 w3 -> sameButTally w1 w3.
Proof.
  intros [H12 S12] [H23 S23].
  split; [|eapply sameButScores_trans; eassumption].
  rewrite H23 at 1. rewrite H12 at 1. reflexivity.
Qed.

Lemma advancePipe_world (moveBy birdFront : Q) (pipe : Pipe.t)
  (w : World) :
  sameButTally w (snd (advancePipe moveBy birdFront pipe w)).
Proof.
  split; [|apply advancePipe_st].
  unfold advancePipe.
  destruct (negb _ && _); cbn [snd]; [|destruct w; reflexivity].
  destruct (Js.gt _ _); destruct w; reflexivity.
Qed.

Lemma forEachPipe_world (moveBy birdFront : Q) (ps : list Pipe.t) :
  forall w, sameButTally w (snd (forEachPipe moveBy birdFront ps w)).
Proof.
  induction ps as [|pipe rest IH]; intros w; cbn [forEachPipe].
  - apply sameButTally_refl.
  - forEach_cons advancePipe_world IH.
    eapply sameButTally_trans; eassumption.
Qed.

(** The filter writes nothing but the children of [#pipes]. *)
Lemma evictPipes_world (ps : list Pipe.t) :
  forall w,
    snd (evictPipes ps w)
    = with_pipesContainer (pipesContainer (snd (evictPipes ps w))) w.
Proof.
  induction ps as [|pipe rest IH]; intros w; cbn [evictPipes].
  - destruct w; reflexivity.
  - destruct (visible (st w) pipe).
    + specialize (IH w). destruct (evictPipes rest w) as [kept w1].
      exact IH.
    + rewrite IH at 1. reflexivity.
Qed.

(** The pipe pass leaves the bird's style, the overlay and the pending
    frames alone; the score board and the storage are as the scoring
    loop left them. *)
Lemma updatePipes_world (deltaSec : Q) (page : Page) (w : World) :
  let w1 := snd (forEachPipe (pipeSpeed (st w) * 60 * deltaSec)
                   (birdX (st w) + birdWidth (getSizes page))
                   (pipes (st w)) w) in
  surroundings (updatePipes deltaSec page w) = surroundings w
  /\ scoreBoard (updatePipes deltaSec page w) = scoreBoard w1
  /\ storage (updatePipes deltaSec page w) = storage w1
  /\ sameButTally w w1.
Proof.
  cbv zeta. rewrite updatePipes_eq. cbv zeta.
  pose proof (forEachPipe_world (pipeSpeed (st w) * 60 * deltaSec)
                (birdX (st w) + birdWidth (getSizes page))
                (pipes (st w)) w) as Hw.
  destruct (forEachPipe _ _ (pipes (st w)) w) as [ps w1].
  cbn [fst snd] in *.
  rewrite (evictPipes_world ps (onState (set_pipes ps) w1)).
  destruct Hw as [Hw Hs].
  split; [|split; [|split; [|split; assumption]]];
    try reflexivity.
  rewrite Hw. reflexivity.
Qed.

Lemma endGame_world (w : World) :
  birdStyle (endGame w) = birdStyle w
  /\ scoreBoard (endGame w) = scoreBoard w
  /\ storage (endGame w) = storage w
  /\ pipesContainer (endGame w) = pipesContainer w
  /\ overlay (endGame w)
     = mkOverlay (gameOverText (score (st w)) (highScore (st w))) false.
Proof.
  unfold endGame. cbn.
  destruct (animationFrameId (st w)); repeat split.
Qed.

Lemma afterPipes_surroundings (now rnd : Q) (page : Page) (w : World) :
  surroundings (afterPipes now rnd page w)
  = surroundings (afterPhysics now w).
Proof.
  unfold afterPipes.
  set (w5 := afterPhysics now w).
  set (w6 := if spawnDue now (st w5) then _ else _).
  destruct (updatePipes_world (frameStep now w) page w6) as (Hs & _).
  rewrite Hs. subst w6. destruct (spawnDue now (st w5)); reflexivity.
Qed.

(** ** The bird as drawn *)

Lemma placeBird_drawn (w : World) : birdDrawn (placeBird w).
Proof.
  unfold birdDrawn, placeBird. cbn.
  split; [reflexivity|]. split; [reflexivity|]. split.
  - apply Q.le_max_l.
  - apply Q.max_lub; [lra|apply Q.le_min_l].
Qed.

Lemma birdDrawn_same (w w' : World) :
  birdStyle w' = birdStyle w ->
  birdX (st w') = birdX (st w) -> birdY (st w') = birdY (st w) ->
  birdDrawn w -> birdDrawn w'.
Proof.
  unfold birdDrawn. intros Hb Hx Hy. now rewrite Hb, Hx, Hy.
Qed.

Lemma kinematics_position (s s' : State) :
  kinematics s' = kinematics s -> birdX s' = birdX s /\ birdY s' = birdY s.
Proof.
  unfold kinematics. intros Hk. injection Hk as Hx Hy _ _. now split.
Qed.

Lemma startPlaying_drawn (page : Page) (w : World) :
  birdDrawn w -> birdDrawn (startPlaying page w).
Proof.
  intros Hd. unfold startPlaying.
  assert (Hrestart :
            birdDrawn
              (requestAnimationFrame
                 (onState (fun s => set_birdVelocity (jumpStrength s) s)
                    (setOverlay emptyText false
                       (onState (set_gameState playing)
                          (resetGameState page w)))))).
  { unfold resetGameState, resetBird. cbv zeta.
    match goal with
    | |- context [placeBird ?X] =>
        generalize X; intros w2;
        apply (birdDrawn_same (placeBird w2));
        [reflexivity|reflexivity|reflexivity|apply placeBird_drawn]
    end. }
  destruct (gameState (st w)); [exact Hrestart| |exact Hrestart].
  revert Hd. apply birdDrawn_same; reflexivity.
Qed.

Lemma gameLoop_drawn (now rnd : Q) (page : Page) (w : World) :
  birdDrawn w -> birdDrawn (gameLoop now rnd page w).
Proof.
  intros Hd.
  destruct (gameState (st w)) eqn:Egs;
    try (rewrite gameLoop_idle by congruence; exact Hd).
  assert (Hmid : birdDrawn (afterPipes now rnd page w)).
  { apply (birdDrawn_same (afterPhysics now w)).
    - pose proof (afterPipes_surroundings now rnd page w) as Hs.
      unfold surroundings in Hs. now injection Hs.
    - apply kinematics_position, afterPipes_fields.
    - apply kinematics_position, afterPipes_fields.
    - apply placeBird_drawn. }
  rewrite (gameLoop_playing now rnd page w Egs). cbv zeta.
  destruct (hasCollision page (afterPipes now rnd page w));
    revert Hmid; generalize (afterPipes now rnd page w); intros w7.
  - apply birdDrawn_same; [apply endGame_world| |];
      now rewrite endGame_st.
  - apply birdDrawn_same; reflexivity.
Qed.

Lemma step_drawn (e : Event) (w : World) :
  birdDrawn w -> birdDrawn (step e w).
Proof.
  intros Hd. apply step_cases; [exact Hd| | |].
  - intros page. now apply startPlaying_drawn.
  - intros now rnd page later. apply gameLoop_drawn.
    revert Hd. apply birdDrawn_same; reflexivity.
  - intros page. unfold onResize.
    destruct (gameState (st w)); [|exact Hd|]; apply placeBird_drawn.
Qed.

(** X1: in every world the page can be in, the bird is drawn at the simulated
    position and its rotation lies in [-25, 70] degrees. *)
Theorem bird_always_drawn_in_place
  (page : Page) (stored : Stored) (es : list Event) :
  birdDrawn (reached page stored es).
Proof.
  apply (reached_invariant birdDrawn); [|apply step_drawn].
  intros page0 stored0. unfold init.
  apply (birdDrawn_same (resetBird page0
                           (clearPipes
                              (onState (set_lastFrameTime 0)
                                 (onState (set_lastPipeTime 0)
                                    (onState (set_score 0)
                                       (loadHighScore
                                          (loadedWorld stored0))))))));
    try reflexivity.
  apply placeBird_drawn.
Qed.

(** ** The score board *)

Lemma boardShown_same (w w' : World) :
  scoreBoard w' = scoreBoard w ->
  score (st w') = score (st w) -> highScore (st w') = highScore (st w) ->
  boardShown w -> boardShown w'.
Proof. unfold boardShown. intros Hb Hs Hh. now rewrite Hb, Hs, Hh. Qed.

Lemma advancePipe_board (moveBy birdFront : Q) (pipe : Pipe.t)
  (w : World) :
  boardShown w -> boardShown (snd (advancePipe moveBy birdFront pipe w)).
Proof.
  intros Hb. unfold advancePipe.
  destruct (negb _ && _); cbn [snd]; [|exact Hb].
  destruct (Js.gt _ _); reflexivity.
Qed.

Lemma forEachPipe_board (moveBy birdFront : Q) (ps : list Pipe.t) :
  forall w,
    boardShown w -> boardShown (snd (forEachPipe moveBy birdFront ps w)).
Proof.
  induction ps as [|pipe rest IH]; intros w Hb; cbn [forEachPipe].
  - exact Hb.
  - pose proof (advancePipe_board moveBy birdFront pipe w Hb) as Hhd.
    destruct (advancePipe moveBy birdFront pipe w) as [pipe' w1].
    specialize (IH w1 Hhd).
    destruct (forEachPipe moveBy birdFront rest w1) as [rest' w2].
    exact IH.
Qed.

Lemma updatePipes_board (deltaSec : Q) (page : Page) (w : World) :
  boardShown w -> boardShown (updatePipes deltaSec page w).
Proof.
  intros Hb. unfold boardShown.
  destruct (updatePipes_world deltaSec page w) as (_ & Hboard & _).
  destruct (updatePipes_counters deltaSec page w) as [Hs Hh].
  cbv zeta in *. rewrite Hboard, Hs, Hh.
  now apply forEachPipe_board.
Qed.

Lemma startPlaying_board (page : Page) (w : World) :
  boardShown w -> boardShown (startPlaying page w).
Proof.
  intros Hb. unfold startPlaying.
  assert (Hrestart :
            boardShown
              (requestAnimationFrame
                 (onState (fun s => set_birdVelocity (jumpStrength s) s)
                    (setOverlay emptyText false
                       (onState (set_gameState playing)
                          (resetGameState page w)))))).
  { unfold resetGameState.
    generalize (resetBird page
                  (clearPipes
                     (onState (set_lastFrameTime 0)
                        (onState (set_lastPipeTime 0)
                           (onState (set_score 0) w))))).
    intros w2. reflexivity. }
  destruct (gameState (st w)); [exact Hrestart|exact Hb|exact Hrestart].
Qed.

Lemma gameLoop_board (now rnd : Q) (page : Page) (w : World) :
  boardShown w -> boardShown (gameLoop now rnd page w).
Proof.
  intros Hb.
  destruct (gameState (st w)) eqn:Egs;
    try (rewrite gameLoop_idle by congruence; exact Hb).
  assert (Hmid : boardShown (afterPipes now rnd page w)).
  { unfold afterPipes. apply updatePipes_board.
    destruct (spawnDue now (st (afterPhysics now w))); exact Hb. }
  rewrite (gameLoop_playing now rnd page w Egs). cbv zeta.
  destruct (hasCollision page (afterPipes now rnd page w));
    revert Hmid; generalize (afterPipes now rnd page w); intros w7.
  - apply boardShown_same; [apply endGame_world| |];
      now rewrite endGame_st.
  - apply boardShown_same; reflexivity.
Qed.

Lemma step_board (e : Event) (w : World) :
  boardShown w -> boardShown (step e w).
Proof.
  intros Hb. apply step_cases; [exact Hb| | |].
  - intros page. now apply startPlaying_board.
  - intros now rnd page later. now apply gameLoop_board.
  - intros page. unfold onResize. destruct (gameState (st w)); exact Hb.
Qed.

(** X2: in every world the page can be in, the score board shows the current
    score and the current high score. *)
Theorem score_board_always_current
  (page : Page) (stored : Stored) (es : list Event) :
  boardShown (reached page stored es).
Proof.
  apply (reached_invariant boardShown); [|apply step_board].
  intros page0 stored0. unfold init.
  generalize (setOverlay startText true
                (resetGameState page0 (loadHighScore (loadedWorld stored0)))).
  intros w3. reflexivity.
Qed.

(** ** The overlay *)

Lemma startPlaying_overlay (page : Page) (w : World) :
  overlayShown w -> overlayShown (startPlaying page w).
Proof.
  intros Ho.
  assert (Hrestart : gameState (st w) <> playing ->
                     overlayShown (startPlaying page w)).
  { intros Hidle.
    destruct (startPlaying_restart_st page w Hidle) as [id Hst].
    unfold overlayShown. rewrite Hst.
    cbn [gameState set_animationFrameId set_birdVelocity set_gameState].
    unfold startPlaying.
    destruct (gameState (st w)); [reflexivity|congruence|reflexivity]. }
  destruct (gameState (st w)) eqn:Egs;
    try (apply Hrestart; discriminate).
  unfold startPlaying, overlayShown in *. rewrite Egs in *.
  cbn. rewrite Egs. exact Ho.
Qed.

Lemma gameLoop_overlay (now rnd : Q) (page : Page) (w : World) :
  overlayShown w -> overlayShown (gameLoop now rnd page w).
Proof.
  intros Ho.
  destruct (gameState (st w)) eqn:Egs;
    try (rewrite gameLoop_idle by congruence; exact Ho).
  rewrite (gameLoop_playing now rnd page w Egs). cbv zeta.
  unfold overlayShown in *. rewrite Egs in Ho.
  destruct (afterPipes_fields now rnd page w) as (_ & _ & Hg).
  pose proof (afterPipes_surroundings now rnd page w) as Hs.
  unfold surroundings in Hs. injection Hs as _ Hov _ _.
  change (overlay (afterPhysics now w)) with (overlay w) in Hov.
  rewrite Egs in Hg. rewrite Ho in Hov. clear Ho Egs.
  destruct (hasCollision page (afterPipes now rnd page w));
    revert Hg Hov; generalize (afterPipes now rnd page w); intros w7 Hg Hov.
  - rewrite endGame_st. cbn [gameState set_gameState].
    apply endGame_world.
  - rewrite requestAnimationFrame_st.
    cbn [gameState set_animationFrameId]. rewrite Hg.
    exact Hov.
Qed.

Lemma step_overlay (e : Event) (w : World) :
  overlayShown w -> overlayShown (step e w).
Proof.
  intros Ho. apply step_cases; [exact Ho| | |].
  - intros page. now apply startPlaying_overlay.
  - intros now rnd page later. now apply gameLoop_overlay.
  - intros page. unfold onResize, overlayShown in *.
    destruct (gameState (st w)) eqn:Egs; cbn; rewrite ?Egs; exact Ho.
Qed.

(** X3: in every world the page can be in, the overlay tells the session
    state: the start message before the first session, hidden and empty
    in play, and after a crash the game-over message with the score and
    the high score the session ended with. *)
Theorem overlay_always_tells_state
  (page : Page) (stored : Stored) (es : list Event) :
  overlayShown (reached page stored es).
Proof.
  apply (reached_invariant overlayShown); [|apply step_overlay].
  intros page0 stored0. unfold overlayShown, init.
  rewrite st_updateScoreBoard, st_setOverlay, resetGameState_st.
  cbn [gameState set_birdVelocity set_birdY set_pipes set_lastFrameTime
       set_lastPipeTime set_score].
  generalize (resetGameState page0 (loadHighScore (loadedWorld stored0))).
  intros w2. reflexivity.
Qed.

(** ** The session state machine *)

Lemma startPlaying_gameState (page : Page) (w : World) :
  gameState (st (startPlaying page w)) = playing.
Proof.
  destruct (gameState (st w)) eqn:Egs.
  - destruct (startPlaying_restart_st page w) as [id Hst]; [congruence|].
    now rewrite Hst.
  - unfold startPlaying. rewrite Egs. exact Egs.
  - destruct (startPlaying_restart_st page w) as [id Hst]; [congruence|].
    now rewrite Hst.
Qed.

Lemma gameLoop_gameState (now rnd : Q) (page : Page) (w : World) :
  gameState (st (gameLoop now rnd page w))
  = match gameState (st w) with
    | playing =>
        if hasCollision page (afterPipes now rnd page w)
        then gameover else playing
    | idle => idle
    end.
Proof.
  destruct (gameState (st w)) eqn:Egs;
    try (rewrite gameLoop_idle by congruence; exact Egs).
  rewrite (gameLoop_playing now rnd page w Egs). cbv zeta.
  destruct (hasCollision page (afterPipes now rnd page w)).
  - now rewrite endGame_st.
  - rewrite requestAnimationFrame_st.
    cbn [gameState set_animationFrameId].
    destruct (afterPipes_fields now rnd page w) as (_ & _ & Hg).
    now rewrite Hg.
Qed.

Lemma onResize_gameState (page : Page) (w : World) :
  gameState (st (onResize page w)) = gameState (st w).
Proof. unfold onResize. destruct (gameState (st w)) eqn:E; auto. Qed.

(** X4: The transitions of the session: the start state is never entered
    again and never left for game over; only an input starts or restarts
    play; only a frame whose pipe pass ends in a collision ends it; and a
    key other than Space changes nothing in any state. *)
Theorem session_transitions (e : Event) (w : World) :
  (gameState (st (step e w)) = start -> gameState (st w) = start)
  /\ (gameState (st w) = start ->
      gameState (st (step e w)) <> gameover)
  /\ (gameState (st w) <> playing ->
      gameState (st (step e w)) = playing ->
      exists event page, e = Input event page)
  /\ (gameState (st w) = playing ->
      gameState (st (step e w)) = gameover ->
      exists now rnd page id later,
        e = AnimationFrame now rnd page
        /\ pendingFrames w = id :: later
        /\ hasCollision page
             (afterPipes now rnd page (with_pendingFrames later w)) = true)
  /\ (forall code page,
         code <> "Space"%string -> step (Input (keydown code) page) w = w).
Proof.
  assert (Hkey : forall code page,
             code <> "Space"%string ->
             step (Input (keydown code) page) w = w).
  { intros code page Hne. cbn. apply String.eqb_neq in Hne.
    now rewrite Hne. }
  destruct e as [event page|now rnd page|page]; cbn [step].
  - assert (Hin : gameState (st (handleInput event page w)) = playing
                  \/ handleInput event page w = w).
    { destruct event as [code| |]; cbn [handleInput];
        try destruct (String.eqb code "Space"); auto;
        left; apply startPlaying_gameState. }
    refine (conj _ (conj _ (conj _ (conj _ Hkey)))).
    + destruct Hin as [H|H]; rewrite H; [discriminate|auto].
    + intros Hs. destruct Hin as [H|H]; rewrite H; congruence.
    + intros _ _. now exists event, page.
    + intros Hp. destruct Hin as [H|H]; rewrite H; congruence.
  - destruct (pendingFrames w) as [|id later] eqn:Ep.
    { refine (conj _ (conj _ (conj _ (conj _ Hkey)))); congruence. }
    rewrite gameLoop_gameState.
    change (gameState (st (with_pendingFrames later w)))
      with (gameState (st w)).
    refine (conj _ (conj _ (conj _ (conj _ Hkey)))).
    + destruct (gameState (st w)); auto.
      destruct (hasCollision _ _); discriminate.
    + intros Hs. rewrite Hs. discriminate.
    + intros Hidle. destruct (gameState (st w)); congruence.
    + intros Hp. rewrite Hp.
      destruct (hasCollision page _) eqn:Ehit; [|discriminate].
      intros _. now exists now, rnd, page, id, later.
  - rewrite onResize_gameState.
    refine (conj _ (conj _ (conj _ (conj _ Hkey)))); congruence.
Qed.

(** An instance: a click starts play from the start state, and the key
    "KeyA" does not. *)
Lemma session_transitions_witness :
  step (Input (keydown "KeyA") demoPage) demoWorld = demoWorld
  /\ exists event page,
       Input mousedown demoPage = Input event page.
Proof.
  destruct (session_transitions (Input mousedown demoPage) demoWorld)
    as (_ & _ & Hstart & _ & Hkey).
  split.
  - apply Hkey. discriminate.
  - apply Hstart; [discriminate|reflexivity].
Defined.

(** ** The pending frame *)

Lemma removeAll_world (ps : list Pipe.t) :
  forall acc,
    let cleared :=
      fold_left (fun acc pipe => removeEl (Pipe.bottomEl pipe)
                                   (removeEl (Pipe.topEl pipe) acc))
        ps acc in
    cleared = with_pipesContainer (pipesContainer cleared) acc.
Proof.
  induction ps as [|pipe rest IH]; intros acc; cbn [fold_left].
  - destruct acc; reflexivity.
  - cbv zeta in *. rewrite IH at 1. reflexivity.
Qed.

(** [clearPipes] writes the pipes and the children of [#pipes] only. *)
Lemma clearPipes_world (w : World) :
  clearPipes w
  = with_pipesContainer (pipesContainer (clearPipes w))
      (onState (set_pipes []) w).
Proof.
  unfold clearPipes.
  rewrite (removeAll_world (pipes (st w)) w) at 1. reflexivity.
Qed.

(** The frame a restart requests. *)
Lemma startPlaying_restart_frame (page : Page) (w : World) :
  gameState (st w) <> playing ->
  pendingFrames (startPlaying page w) = pendingFrames w ++ [nextFrameId w]
  /\ animationFrameId (st (startPlaying page w)) = Some (nextFrameId w).
Proof.
  intros Hidle. unfold startPlaying, resetGameState.
  destruct (gameState (st w)); try congruence;
    rewrite clearPipes_world; split; reflexivity.
Qed.

Lemma endGame_pending (w : World) :
  pendingFrames w = [] -> pendingFrames (endGame w) = [].
Proof.
  intros Hnone. unfold endGame. cbn.
  destruct (animationFrameId (st w)); cbn; now rewrite Hnone.
Qed.

Lemma step_scheduled (e : Event) (w : World) :
  scheduled w -> scheduled (step e w).
Proof.
  intros Hs. destruct e as [event page|now rnd page|page]; cbn [step].
  - assert (Hstart : scheduled (startPlaying page w)).
    { unfold scheduled in *. rewrite startPlaying_gameState.
      destruct (gameState (st w)) eqn:Egs.
      - destruct (startPlaying_restart_frame page w) as [Hp Ha];
          [congruence|].
        exists (nextFrameId w). now rewrite Hp, Ha, Hs.
      - unfold startPlaying. rewrite Egs. exact Hs.
      - destruct (startPlaying_restart_frame page w) as [Hp Ha];
          [congruence|].
        exists (nextFrameId w). now rewrite Hp, Ha, Hs. }
    destruct event as [code| |]; cbn [handleInput];
      try destruct (String.eqb code "Space"); assumption.
  - destruct (pendingFrames w) as [|id later] eqn:Ep; [exact Hs|].
    unfold scheduled in *. rewrite gameLoop_gameState.
    change (gameState (st (with_pendingFrames later w)))
      with (gameState (st w)).
    destruct (gameState (st w)) eqn:Egs; try congruence.
    destruct Hs as (id0 & Hone & _).
    rewrite Ep in Hone. injection Hone as _ Hlater. subst later.
    set (w0 := with_pendingFrames [] w).
    assert (Hnone : pendingFrames (afterPipes now rnd page w0) = []).
    { pose proof (afterPipes_surroundings now rnd page w0) as Hsur.
      unfold surroundings in Hsur. now injection Hsur. }
    rewrite (gameLoop_playing now rnd page w0 Egs). cbv zeta.
    destruct (hasCollision page (afterPipes now rnd page w0)).
    + now apply endGame_pending.
    + exists (nextFrameId (afterPipes now rnd page w0)).
      cbn. now rewrite Hnone.
  - unfold scheduled, onResize in *.
    destruct (gameState (st w)) eqn:Egs; cbn; rewrite ?Egs; exact Hs.
Qed.

(** X5: in every world the page can be in, a session in play has exactly one
    frame callback pending, the one [state.animationFrameId] names, and
    outside play none is pending; so a frame event then changes
    nothing. *)
Theorem one_frame_pending_in_play
  (page : Page) (stored : Stored) (es : list Event) :
  scheduled (reached page stored es)
  /\ (gameState (st (reached page stored es)) <> playing ->
      forall now rnd page',
        step (AnimationFrame now rnd page') (reached page stored es)
        = reached page stored es).
Proof.
  assert (Hs : scheduled (reached page stored es)).
  { apply (reached_invariant scheduled); [|apply step_scheduled].
    intros page0 stored0. reflexivity. }
  split; [exact Hs|].
  intros Hidle now rnd page'. cbn [step].
  unfold scheduled in Hs.
  destruct (gameState (st (reached page stored es)));
    try congruence; now rewrite Hs.
Qed.

(** An instance: the window shrinks to a field 100 px high, the bird is
    below the ground line at the next frame, and after that crash a
    frame changes nothing. *)
Lemma one_frame_pending_in_play_witness :
  let crashed :=
    reached demoPage noItem
      [Input mousedown demoPage;
       AnimationFrame 1000 0.5 demoPage;
       AnimationFrame 1050 0.5
         (plainPage 400 100 50 34 28)] in
  gameState (st crashed) = gameover
  /\ step (AnimationFrame 1100 0.5 demoPage) crashed = crashed.
Proof.
  cbv zeta. split; [reflexivity|].
  destruct (one_frame_pending_in_play demoPage noItem
              [Input mousedown demoPage;
               AnimationFrame 1000 0.5 demoPage;
               AnimationFrame 1050 0.5
                 (plainPage 400 100 50 34 28)]) as [_ Hidle].
  apply Hidle. vm_compute. discriminate.
Defined.

(** ** What no event writes *)

Lemma step_constants (e : Event) (w : World) :
  tuning (st (step e w)) = tuning (st w)
  /\ birdX (st (step e w)) = birdX (st w).
Proof.
  apply step_cases with (P := fun w' =>
    tuning (st w') = tuning (st w) /\ birdX (st w') = birdX (st w)).
  - split; reflexivity.
  - intros page. destruct (gameState (st w)) eqn:Egs;
      try (destruct (startPlaying_restart_st page w) as [id Hst];
           [congruence|];
           rewrite Hst, resetGameState_st; split; reflexivity).
    unfold startPlaying. rewrite Egs. split; reflexivity.
  - intros now rnd page later.
    set (w0 := with_pendingFrames later w).
    destruct (gameState (st w0)) eqn:Egs;
      try (rewrite gameLoop_idle by congruence; split; reflexivity).
    destruct (gameLoop_kinematics now rnd page w0 Egs) as [Hk Ht].
    split; [exact Ht|].
    apply kinematics_position in Hk. apply Hk.
  - intros page. unfold onResize.
    destruct (gameState (st w)); split; reflexivity.
Qed.

(** X6: no event writes the tuning constants of [state] (gravity, jump
    strength, pipe speed, width, gap and interval, minimum pipe height)
    or the bird's horizontal position: they are the same after any run
    of events. *)
Theorem constants_never_change (es : list Event) (w : World) :
  tuning (st (run es w)) = tuning (st w)
  /\ birdX (st (run es w)) = birdX (st w).
Proof.
  unfold run. revert w.
  induction es as [|e rest IH]; intros w; cbn [fold_left].
  - split; reflexivity.
  - destruct (IH (step e w)) as [Ht Hx].
    destruct (step_constants e w) as [Ht' Hx'].
    split; congruence.
Qed.

(** ** The stored high score *)

(** X7: [loadHighScore] reads a high score that is never negative: a stored
    positive number as it is, and 0 for a missing item, for a string
    that is not a finite number and for a number that is not positive;
    it writes nothing but [state.highScore]. *)
Theorem loaded_high_score_sanitised (w : World) :
  0 <= highScore (st (loadHighScore w))
  /\ (forall saved,
         storage w = storedNumber saved -> 0 < saved ->
         highScore (st (loadHighScore w)) = saved)
  /\ (forall saved,
         storage w = storedNumber saved -> saved <= 0 ->
         highScore (st (loadHighScore w)) = 0)
  /\ (storage w = noItem \/ storage w = notFinite ->
      highScore (st (loadHighScore w)) = 0)
  /\ loadHighScore w
     = onState (set_highScore (highScore (st (loadHighScore w)))) w.
Proof.
  unfold loadHighScore.
  cbn [highScore st onState with_st set_highScore].
  split; [|split; [|split; [|split]]].
  - destruct (storage w) as [| |saved]; try lra.
    destruct (Js.gt saved 0) eqn:E; [apply gt_true in E|]; lra.
  - intros saved Hs Hpos. rewrite Hs.
    apply gt_true in Hpos. now rewrite Hpos.
  - intros saved Hs Hneg. rewrite Hs.
    apply gt_false in Hneg. now rewrite Hneg.
  - intros [Hs|Hs]; now rewrite Hs.
  - reflexivity.
Qed.

(** An instance: a stored -3 is read as 0 and a stored 12 as 12. *)
Lemma loaded_high_score_sanitised_witness :
  highScore (st (loadHighScore (loadedWorld (storedNumber (-3))))) = 0
  /\ highScore (st (loadHighScore (loadedWorld (storedNumber 12)))) = 12.
Proof.
  split.
  - destruct (loaded_high_score_sanitised
                (loadedWorld (storedNumber (-3)))) as (_ & _ & Hneg & _).
    apply (Hneg (-3)); [reflexivity|vm_compute; discriminate].
  - destruct (loaded_high_score_sanitised
                (loadedWorld (storedNumber 12))) as (_ & Hpos & _).
    apply (Hpos 12); reflexivity.
Defined.

Lemma reloadedHighScore_storage (w w' : World) :
  storage w' = storage w -> reloadedHighScore w' = reloadedHighScore w.
Proof.
  unfold reloadedHighScore, loadHighScore.
  cbn [highScore st onState with_st set_highScore].
  intros Hs. now rewrite Hs.
Qed.

(** The storage agrees with the high score, and the counters are in
    order. *)
Lemma advancePipe_stored (moveBy birdFront : Q) (pipe : Pipe.t)
  (w : World) :
  countersOk (st w) /\ reloadedHighScore w = highScore (st w) ->
  countersOk (st (snd (advancePipe moveBy birdFront pipe w)))
  /\ reloadedHighScore (snd (advancePipe moveBy birdFront pipe w))
     = highScore (st (snd (advancePipe moveBy birdFront pipe w))).
Proof.
  intros [Hc Hr].
  split.
  { destruct (advancePipe_highScore moveBy birdFront pipe w)
      as (_ & Hs & _ & Hi).
    destruct Hc as [H0 Hle]. split; [cbv zeta in Hs; lra|]. auto. }
  unfold advancePipe.
  destruct (negb _ && _); cbn [snd]; [|exact Hr].
  destruct (Js.gt _ _) eqn:Enew.
  - unfold reloadedHighScore, loadHighScore, saveHighScore.
    cbn [highScore st onState with_st set_highScore set_score storage
         with_storage with_scoreBoard updateScoreBoard score].
    destruct Hc as [H0 _].
    assert (Hpos : Js.gt (score (st w) + 1) 0 = true)
      by (apply gt_true; lra).
    now rewrite Hpos.
  - exact Hr.
Qed.

Lemma forEachPipe_stored (moveBy birdFront : Q) (ps : list Pipe.t) :
  forall w,
    countersOk (st w) /\ reloadedHighScore w = highScore (st w) ->
    countersOk (st (snd (forEachPipe moveBy birdFront ps w)))
    /\ reloadedHighScore (snd (forEachPipe moveBy birdFront ps w))
       = highScore (st (snd (forEachPipe moveBy birdFront ps w))).
Proof.
  induction ps as [|pipe rest IH]; intros w Hw; cbn [forEachPipe].
  - exact Hw.
  - pose proof (advancePipe_stored moveBy birdFront pipe w Hw) as Hhd.
    destruct (advancePipe moveBy birdFront pipe w) as [pipe' w1].
    specialize (IH w1 Hhd).
    destruct (forEachPipe moveBy birdFront rest w1) as [rest' w2].
    exact IH.
Qed.

Lemma updatePipes_stored (deltaSec : Q) (page : Page) (w : World) :
  countersOk (st w) /\ reloadedHighScore w = highScore (st w) ->
  countersOk (st (updatePipes deltaSec page w))
  /\ reloadedHighScore (updatePipes deltaSec page w)
     = highScore (st (updatePipes deltaSec page w)).
Proof.
  intros Hw.
  destruct (updatePipes_world deltaSec page w) as (_ & _ & Hsto & _).
  destruct (updatePipes_counters deltaSec page w) as [Hs Hh].
  cbv zeta in *.
  apply (forEachPipe_stored (pipeSpeed (st w) * 60 * deltaSec)
           (birdX (st w) + birdWidth (getSizes page)) (pipes (st w)))
    in Hw.
  destruct Hw as [[H0 Hle] Hr].
  unfold countersOk. rewrite Hs, Hh.
  rewrite (reloadedHighScore_storage _ _ Hsto).
  split; [split|]; assumption.
Qed.

Lemma startPlaying_stored (page : Page) (w : World) :
  countersOk (st w) /\ reloadedHighScore w = highScore (st w) ->
  countersOk (st (startPlaying page w))
  /\ reloadedHighScore (startPlaying page w)
     = highScore (st (startPlaying page w)).
Proof.
  intros [Hc Hr].
  destruct (startPlaying_counters page w) as [Hh Hinv].
  split; [auto|]. rewrite Hh, <- Hr.
  apply reloadedHighScore_storage.
  unfold startPlaying, resetGameState.
  destruct (gameState (st w)); try reflexivity;
    rewrite clearPipes_world; reflexivity.
Qed.

Lemma gameLoop_stored (now rnd : Q) (page : Page) (w : World) :
  countersOk (st w) /\ reloadedHighScore w = highScore (st w) ->
  countersOk (st (gameLoop now rnd page w))
  /\ reloadedHighScore (gameLoop now rnd page w)
     = highScore (st (gameLoop now rnd page w)).
Proof.
  intros Hw.
  destruct (gameState (st w)) eqn:Egs;
    try (rewrite gameLoop_idle by congruence; exact Hw).
  assert (Hmid : countersOk (st (afterPipes now rnd page w))
                 /\ reloadedHighScore (afterPipes now rnd page w)
                    = highScore (st (afterPipes now rnd page w))).
  { unfold afterPipes. apply updatePipes_stored.
    destruct (spawnDue now (st (afterPhysics now w))); exact Hw. }
  rewrite (gameLoop_playing now rnd page w Egs). cbv zeta.
  destruct (hasCollision page (afterPipes now rnd page w));
    revert Hmid; generalize (afterPipes now rnd page w); intros w7 Hmid.
  - rewrite endGame_st.
    rewrite (reloadedHighScore_storage w7 (endGame w7));
      [exact Hmid|apply endGame_world].
  - exact Hmid.
Qed.

Lemma step_stored (e : Event) (w : World) :
  countersOk (st w) /\ reloadedHighScore w = highScore (st w) ->
  countersOk (st (step e w))
  /\ reloadedHighScore (step e w) = highScore (st (step e w)).
Proof.
  intros Hw. apply step_cases; [exact Hw| | |].
  - intros page. now apply startPlaying_stored.
  - intros now rnd page later. now apply gameLoop_stored.
  - intros page. unfold onResize. destruct (gameState (st w)); exact Hw.
Qed.

(** X8: at any moment the storage holds the current high score: a page load
    on whatever is stored then starts with the high score the page had,
    for every run of events since the last load. *)
Theorem high_score_survives_reload
  (page page' : Page) (stored : Stored) (es : list Event) :
  highScore
    (st (init page' (loadedWorld (storage (reached page stored es)))))
  = highScore (st (reached page stored es)).
Proof.
  assert (Hinv : countersOk (st (reached page stored es))
                 /\ reloadedHighScore (reached page stored es)
                    = highScore (st (reached page stored es))).
  { apply (reached_invariant
             (fun w => countersOk (st w)
                       /\ reloadedHighScore w = highScore (st w)));
      [|apply step_stored].
    intros page0 stored0. split; [apply init_counters|].
    unfold init.
    rewrite st_updateScoreBoard, st_setOverlay, resetGameState_st.
    cbn [highScore set_birdVelocity set_birdY set_pipes set_lastFrameTime
         set_lastPipeTime set_score].
    apply reloadedHighScore_storage.
    unfold resetGameState. rewrite clearPipes_world. reflexivity. }
  destruct Hinv as [_ Hr]. rewrite <- Hr.
  unfold init.
  rewrite st_updateScoreBoard, st_setOverlay, resetGameState_st.
  reflexivity.
Qed.

(** ** The children of [#pipes] *)

Lemma gateElements_app (ps qs : list Pipe.t) :
  gateElements (ps ++ qs) = gateElements ps ++ gateElements qs.
Proof. unfold gateElements. apply flat_map_app. Qed.

Lemma gateElements_later (ps ps' : list Pipe.t) :
  Forall2 laterGate ps ps' -> gateElements ps' = gateElements ps.
Proof.
  induction 1 as [|pipe pipe' ps ps' (Ht & Hb & _) _ IH]; [reflexivity|].
  unfold gateElements in *. cbn [flat_map app].
  now rewrite Ht, Hb, IH.
Qed.

Lemma filter_absent (id : nat) (ids : list nat) :
  ~ In id ids -> filter (fun i => negb (Nat.eqb i id)) ids = ids.
Proof.
  intros Hout. apply forallb_filter_id. apply forallb_forall.
  intros i Hi. apply negb_true_iff, Nat.eqb_neq. congruence.
Qed.

(** Removing the two elements of the first gate from the children. *)
Lemma remove_first_gate (pre : list nat) (pipe : Pipe.t)
  (rest : list Pipe.t) (w : World) :
  pipesContainer w = pre ++ gateElements (pipe :: rest) ->
  NoDup (pre ++ gateElements (pipe :: rest)) ->
  pipesContainer
    (removeEl (Pipe.bottomEl pipe) (removeEl (Pipe.topEl pipe) w))
  = pre ++ gateElements rest.
Proof.
  intros Hc Hnd. unfold removeEl.
  cbn [pipesContainer with_pipesContainer]. rewrite Hc.
  change (gateElements (pipe :: rest))
    with ([elId (Pipe.topEl pipe); elId (Pipe.bottomEl pipe)]
          ++ gateElements rest) in *.
  set (t := elId (Pipe.topEl pipe)) in *.
  set (b := elId (Pipe.bottomEl pipe)) in *.
  apply NoDup_remove in Hnd. destruct Hnd as [Hnd Ht].
  cbn [app] in Hnd.
  apply (NoDup_remove pre (gateElements rest) b) in Hnd.
  destruct Hnd as [Hnd Hb].
  assert (Htb : t <> b).
  { intros E. apply Ht. apply in_or_app. right. left. now rewrite E. }
  assert (Hb' : ~ In b pre /\ ~ In b (gateElements rest)).
  { split; intros Hin; apply Hb; apply in_or_app; auto. }
  assert (Ht' : ~ In t pre /\ ~ In t (gateElements rest)).
  { split; intros Hin; apply Ht; apply in_or_app; [auto|].
    right. now right. }
  rewrite !filter_app. cbn [filter app].
  rewrite Nat.eqb_refl. cbn [negb].
  destruct (Nat.eqb b t) eqn:Ebt;
    [apply Nat.eqb_eq in Ebt; congruence|].
  cbn [negb filter]. rewrite Nat.eqb_refl. cbn [negb].
  destruct Hb' as [Hb1 Hb2]. destruct Ht' as [Ht1 Ht2].
  rewrite (filter_absent t pre Ht1), (filter_absent b pre Hb1).
  rewrite (filter_absent t (gateElements rest) Ht2).
  rewrite (filter_absent b (gateElements rest) Hb2).
  reflexivity.
Qed.

Lemma evictPipes_children (ps : list Pipe.t) :
  forall pre w,
    pipesContainer w = pre ++ gateElements ps ->
    NoDup (pre ++ gateElements ps) ->
    pipesContainer (snd (evictPipes ps w))
    = pre ++ gateElements (filter (visible (st w)) ps).
Proof.
  induction ps as [|pipe rest IH]; intros pre w Hc Hnd;
    cbn [evictPipes filter].
  - exact Hc.
  - destruct (visible (st w) pipe).
    + change (gateElements (pipe :: rest))
        with ([elId (Pipe.topEl pipe); elId (Pipe.bottomEl pipe)]
              ++ gateElements rest) in *.
      rewrite app_assoc in Hc, Hnd.
      specialize (IH _ w Hc Hnd).
      destruct (evictPipes rest w) as [kept w1]. cbn [snd] in *.
      rewrite IH, <- app_assoc. reflexivity.
    + rewrite (IH pre).
      * reflexivity.
      * now apply remove_first_gate.
      * change (gateElements (pipe :: rest))
          with ([elId (Pipe.topEl pipe); elId (Pipe.bottomEl pipe)]
                ++ gateElements rest) in Hnd.
        apply NoDup_remove_1 in Hnd. cbn [app] in Hnd.
        now apply NoDup_remove_1 in Hnd.
Qed.

Lemma removeAll_children (ps : list Pipe.t) :
  forall w,
    pipesContainer w = gateElements ps -> NoDup (gateElements ps) ->
    pipesContainer
      (fold_left (fun acc pipe => removeEl (Pipe.bottomEl pipe)
                                    (removeEl (Pipe.topEl pipe) acc))
         ps w) = [].
Proof.
  induction ps as [|pipe rest IH]; intros w Hc Hnd; cbn [fold_left].
  - exact Hc.
  - apply IH.
    + now apply (remove_first_gate [] pipe rest w).
    + change (gateElements (pipe :: rest))
        with ([elId (Pipe.topEl pipe); elId (Pipe.bottomEl pipe)]
              ++ gateElements rest) in Hnd.
      apply (NoDup_remove_1 []) in Hnd. cbn [app] in Hnd.
      now apply (NoDup_remove_1 []) in Hnd.
Qed.

Lemma NoDup_filter_gates (f : Pipe.t -> bool) (ps : list Pipe.t) :
  NoDup (gateElements ps) -> NoDup (gateElements (filter f ps)).
Proof.
  induction ps as [|pipe rest IH]; intros Hnd; cbn [filter]; [exact Hnd|].
  change (gateElements (pipe :: rest))
    with ([elId (Pipe.topEl pipe); elId (Pipe.bottomEl pipe)]
          ++ gateElements rest) in Hnd.
  assert (Hrest : NoDup (gateElements rest)).
  { apply (NoDup_remove_1 []) in Hnd. cbn [app] in Hnd.
    now apply (NoDup_remove_1 []) in Hnd. }
  destruct (f pipe); [|now apply IH].
  change (gateElements (pipe :: filter f rest))
    with ([elId (Pipe.topEl pipe); elId (Pipe.bottomEl pipe)]
          ++ gateElements (filter f rest)).
  assert (Hsub : forall id, In id (gateElements (filter f rest)) ->
                            In id (gateElements rest)).
  { intros id Hin. unfold gateElements in *.
    apply in_flat_map in Hin. destruct Hin as (p & Hp & Hid).
    apply in_flat_map. exists p. apply filter_In in Hp. tauto. }
  cbn [app] in *.
  apply NoDup_cons_iff in Hnd. destruct Hnd as [Ht Hnd].
  apply NoDup_cons_iff in Hnd. destruct Hnd as [Hb _].
  constructor; [|constructor; [|now apply IH]].
  - intros [E|Hin]; [apply Ht; now left|].
    apply Ht. right. now apply Hsub.
  - intros Hin. apply Hb. now apply Hsub.
Qed.

Lemma createPipe_tidy (now rnd : Q) (page : Page) (w : World) :
  documentTidy w -> documentTidy (createPipe now rnd page w).
Proof.
  intros (Hc & Hnd & Hold). unfold documentTidy.
  rewrite createPipe_pipes, gateElements_app.
  destruct (newPipe_fields rnd page w)
    as (_ & _ & _ & _ & _ & _ & _ & Htop & Hbot).
  assert (Hnew : gateElements [newPipe rnd page w]
                 = [created w; S (created w)]).
  { unfold gateElements. cbn [flat_map app]. now rewrite Htop, Hbot. }
  rewrite Hnew.
  change (pipesContainer (createPipe now rnd page w))
    with (pipesContainer w ++ [created w; S (created w)]).
  change (created (createPipe now rnd page w)) with (S (S (created w))).
  rewrite Hc. split; [reflexivity|]. split.
  - rewrite Forall_forall in Hold.
    apply NoDup_app; [exact Hnd| |].
    + repeat constructor; cbn; intuition lia.
    + intros id Hin [E|[E|[]]]; apply Hold in Hin; lia.
  - apply Forall_app. split.
    + eapply Forall_impl; [|exact Hold]. cbn. intros id Hid. lia.
    + repeat constructor; lia.
Qed.

Lemma pipesContainer_onState (f : State -> State) (w : World) :
  pipesContainer (onState f w) = pipesContainer w.
Proof. reflexivity. Qed.

Lemma created_onState (f : State -> State) (w : World) :
  created (onState f w) = created w.
Proof. reflexivity. Qed.

Lemma gateElements_filter_subset (f : Pipe.t -> bool) (ps : list Pipe.t)
  (id : nat) :
  In id (gateElements (filter f ps)) -> In id (gateElements ps).
Proof.
  unfold gateElements. intros Hin.
  apply in_flat_map in Hin. destruct Hin as (p & Hp & Hid).
  apply in_flat_map. exists p. apply filter_In in Hp. tauto.
Qed.

Lemma updatePipes_tidy (deltaSec : Q) (page : Page) (w : World) :
  documentTidy w -> documentTidy (updatePipes deltaSec page w).
Proof.
  intros (Hc & Hnd & Hold).
  pose proof (updatePipes_created deltaSec page w) as Hcreated.
  unfold documentTidy. rewrite Hcreated. clear Hcreated.
  rewrite updatePipes_eq. cbv zeta.
  pose proof (forEachPipe_laterGate (pipeSpeed (st w) * 60 * deltaSec)
                (birdX (st w) + birdWidth (getSizes page))
                (pipes (st w)) w) as Hlater.
  apply gateElements_later in Hlater.
  destruct (forEachPipe_world (pipeSpeed (st w) * 60 * deltaSec)
              (birdX (st w) + birdWidth (getSizes page))
              (pipes (st w)) w) as [Hw1 _].
  destruct (forEachPipe _ _ (pipes (st w)) w) as [ps w1].
  cbn [fst snd] in *.
  assert (Hc1 : pipesContainer (onState (set_pipes ps) w1)
                = [] ++ gateElements ps).
  { rewrite pipesContainer_onState, Hw1, Hlater. exact Hc. }
  rewrite <- Hlater in Hnd, Hold. clear Hlater Hw1 Hc.
  pose proof (evictPipes_children ps [] _ Hc1 Hnd) as Hkids.
  pose proof (evictPipes_kept ps (onState (set_pipes ps) w1)) as Hkept.
  revert Hkids Hkept.
  generalize (visible (st (onState (set_pipes ps) w1))). intros keep.
  generalize (evictPipes ps (onState (set_pipes ps) w1)).
  intros [kept w3]. cbn [fst snd]. intros Hkids Hkept. subst kept.
  rewrite pipesContainer_onState, st_onState.
  cbn [pipes set_pipes].
  split; [exact Hkids|]. split.
  - now apply NoDup_filter_gates.
  - rewrite Forall_forall in *. intros id Hin.
    apply Hold. eapply gateElements_filter_subset. exact Hin.
Qed.

Lemma clearPipes_tidy (w : World) :
  documentTidy w -> documentTidy (clearPipes w).
Proof.
  intros (Hc & Hnd & _). unfold documentTidy.
  rewrite clearPipes_st. cbn [pipes set_pipes].
  split; [|split; constructor].
  unfold clearPipes. rewrite pipesContainer_onState.
  now apply removeAll_children.
Qed.

(** A world whose pipes, children of [#pipes] and element count are
    those of [w] is tidy when [w] is. *)
Lemma documentTidy_same (w w' : World) :
  pipes (st w') = pipes (st w) ->
  pipesContainer w' = pipesContainer w -> created w' = created w ->
  documentTidy w -> documentTidy w'.
Proof.
  unfold documentTidy. intros Hp Hc Hn. now rewrite Hp, Hc, Hn.
Qed.

Lemma startPlaying_tidy (page : Page) (w : World) :
  documentTidy w -> documentTidy (startPlaying page w).
Proof.
  intros Ht. unfold startPlaying.
  assert (Hrestart :
            documentTidy
              (requestAnimationFrame
                 (onState (fun s => set_birdVelocity (jumpStrength s) s)
                    (setOverlay emptyText false
                       (onState (set_gameState playing)
                          (resetGameState page w)))))).
  { unfold resetGameState.
    assert (Hclear :
              documentTidy
                (clearPipes
                   (onState (set_lastFrameTime 0)
                      (onState (set_lastPipeTime 0)
                         (onState (set_score 0) w))))).
    { apply clearPipes_tidy. revert Ht.
      apply documentTidy_same; reflexivity. }
    revert Hclear.
    generalize (clearPipes
                  (onState (set_lastFrameTime 0)
                     (onState (set_lastPipeTime 0)
                        (onState (set_score 0) w)))).
    intros w2. apply documentTidy_same; reflexivity. }
  destruct (gameState (st w)); [exact Hrestart| |exact Hrestart].
  revert Ht. apply documentTidy_same; reflexivity.
Qed.

Lemma gameLoop_tidy (now rnd : Q) (page : Page) (w : World) :
  documentTidy w -> documentTidy (gameLoop now rnd page w).
Proof.
  intros Ht.
  destruct (gameState (st w)) eqn:Egs;
    try (rewrite gameLoop_idle by congruence; exact Ht).
  assert (Hmid : documentTidy (afterPipes now rnd page w)).
  { unfold afterPipes. apply updatePipes_tidy.
    assert (H5 : documentTidy (afterPhysics now w))
      by (revert Ht; apply documentTidy_same; reflexivity).
    revert H5. generalize (afterPhysics now w). intros w5 H5.
    destruct (spawnDue now (st w5)); [|exact H5].
    now apply createPipe_tidy. }
  rewrite (gameLoop_playing now rnd page w Egs). cbv zeta.
  destruct (hasCollision page (afterPipes now rnd page w));
    revert Hmid; generalize (afterPipes now rnd page w); intros w7.
  - apply documentTidy_same;
      [now rewrite endGame_st|apply endGame_world|apply endGame_created].
  - apply documentTidy_same; reflexivity.
Qed.

Lemma step_tidy (e : Event) (w : World) :
  documentTidy w -> documentTidy (step e w).
Proof.
  intros Ht. apply step_cases; [exact Ht| | |].
  - intros page. now apply startPlaying_tidy.
  - intros now rnd page later. apply gameLoop_tidy.
    revert Ht. apply documentTidy_same; reflexivity.
  - intros page. unfold onResize.
    destruct (gameState (st w)); try exact Ht;
      revert Ht; apply documentTidy_same; reflexivity.
Qed.

(** X9: in every world the page can be in, the children of [#pipes] are
    exactly the two elements of each gate in play, in gate order and each
    once: an evicted or cleared gate leaves no element behind, and no
    element belongs to two gates. *)
Theorem pipe_elements_match_gates
  (page : Page) (stored : Stored) (es : list Event) :
  pipesContainer (reached page stored es)
  = gateElements (pipes (st (reached page stored es)))
  /\ NoDup (gateElements (pipes (st (reached page stored es)))).
Proof.
  assert (Ht : documentTidy (reached page stored es)).
  { apply (reached_invariant documentTidy); [|apply step_tidy].
    intros page0 stored0. unfold init, resetGameState.
    assert (Hclear :
              documentTidy
                (clearPipes
                   (onState (set_lastFrameTime 0)
                      (onState (set_lastPipeTime 0)
                         (onState (set_score 0)
                            (loadHighScore (loadedWorld stored0))))))).
    { apply clearPipes_tidy. repeat split; constructor. }
    revert Hclear.
    generalize (clearPipes
                  (onState (set_lastFrameTime 0)
                     (onState (set_lastPipeTime 0)
                        (onState (set_score 0)
                           (loadHighScore (loadedWorld stored0)))))).
    intros w2. apply documentTidy_same; reflexivity. }
  destruct Ht as (Hc & Hnd & _). now split.
Qed.

(** ** The gates as drawn *)

Lemma advancePipe_gateDrawn (gap width moveBy birdFront : Q)
  (pipe : Pipe.t) (w : World) :
  gateDrawn gap width pipe ->
  gateDrawn gap width (fst (advancePipe moveBy birdFront pipe w)).
Proof.
  intros (Hl & Hl' & Hw & Hw' & Hh & Ht & Hg). unfold advancePipe.
  destruct (negb _ && _); cbn [fst]; unfold gateDrawn; cbn;
    repeat split; assumption.
Qed.

Lemma forEachPipe_gatesDrawn (gap width moveBy birdFront : Q)
  (ps : list Pipe.t) :
  forall w,
    Forall (gateDrawn gap width) ps ->
    Forall (gateDrawn gap width) (fst (forEachPipe moveBy birdFront ps w)).
Proof.
  induction ps as [|pipe rest IH]; intros w Hall; cbn [forEachPipe].
  - constructor.
  - apply Forall_cons_iff in Hall. destruct Hall as [Hhd Hrest].
    pose proof (advancePipe_gateDrawn gap width moveBy birdFront pipe w
                  Hhd) as Hhd'.
    destruct (advancePipe moveBy birdFront pipe w) as [pipe' w1].
    specialize (IH w1 Hrest).
    destruct (forEachPipe moveBy birdFront rest w1) as [rest' w2].
    cbn [fst] in *. now constructor.
Qed.

Lemma tuning_gap_width (s s' : State) :
  tuning s' = tuning s ->
  pipeGap s' = pipeGap s /\ pipeWidth s' = pipeWidth s.
Proof.
  unfold tuning. intros Ht. injection Ht as _ _ _ Hw Hg _ _. now split.
Qed.

Lemma gatesDrawn_same (w w' : World) :
  pipes (st w') = pipes (st w) -> tuning (st w') = tuning (st w) ->
  gatesDrawn w -> gatesDrawn w'.
Proof.
  unfold gatesDrawn. intros Hp Ht.
  destruct (tuning_gap_width _ _ Ht) as [Hg Hw]. now rewrite Hp, Hg, Hw.
Qed.

Lemma updatePipes_gatesDrawn (deltaSec : Q) (page : Page) (w : World) :
  gatesDrawn w -> gatesDrawn (updatePipes deltaSec page w).
Proof.
  unfold gatesDrawn. intros Hall.
  destruct (updatePipes_fields deltaSec page w) as (_ & Ht & _).
  destruct (tuning_gap_width _ _ Ht) as [Hg Hw]. rewrite Hg, Hw.
  rewrite updatePipes_pipes.
  rewrite Forall_forall. intros pipe Hin. apply filter_In in Hin.
  destruct Hin as [Hin _]. revert pipe Hin. rewrite <- Forall_forall.
  now apply forEachPipe_gatesDrawn.
Qed.

Lemma createPipe_gatesDrawn (now rnd : Q) (page : Page) (w : World) :
  gatesDrawn w -> gatesDrawn (createPipe now rnd page w).
Proof.
  unfold gatesDrawn. intros Hall. rewrite createPipe_pipes.
  change (pipeGap (st (createPipe now rnd page w)))
    with (pipeGap (st w)).
  change (pipeWidth (st (createPipe now rnd page w)))
    with (pipeWidth (st w)).
  apply Forall_app. split; [exact Hall|].
  constructor; [|constructor].
  unfold newPipe. cbn. rewrite last_last.
  unfold gateDrawn. cbn. repeat split.
Qed.

Lemma startPlaying_gatesDrawn (page : Page) (w : World) :
  gatesDrawn w -> gatesDrawn (startPlaying page w).
Proof.
  intros Hd. destruct (gameState (st w)) eqn:Egs.
  - destruct (startPlaying_restart_st page w) as [id Hst]; [congruence|].
    unfold gatesDrawn. rewrite Hst, resetGameState_st. constructor.
  - unfold startPlaying. rewrite Egs.
    revert Hd. apply gatesDrawn_same; reflexivity.
  - destruct (startPlaying_restart_st page w) as [id Hst]; [congruence|].
    unfold gatesDrawn. rewrite Hst, resetGameState_st. constructor.
Qed.

Lemma gameLoop_gatesDrawn (now rnd : Q) (page : Page) (w : World) :
  gatesDrawn w -> gatesDrawn (gameLoop now rnd page w).
Proof.
  intros Hd.
  destruct (gameState (st w)) eqn:Egs;
    try (rewrite gameLoop_idle by congruence; exact Hd).
  assert (Hmid : gatesDrawn (afterPipes now rnd page w)).
  { unfold afterPipes. apply updatePipes_gatesDrawn.
    assert (H5 : gatesDrawn (afterPhysics now w))
      by (revert Hd; apply gatesDrawn_same; reflexivity).
    revert H5. generalize (afterPhysics now w). intros w5 H5.
    destruct (spawnDue now (st w5)); [|exact H5].
    now apply createPipe_gatesDrawn. }
  rewrite (gameLoop_playing now rnd page w Egs). cbv zeta.
  destruct (hasCollision page (afterPipes now rnd page w));
    revert Hmid; generalize (afterPipes now rnd page w); intros w7.
  - apply gatesDrawn_same; now rewrite endGame_st.
  - apply gatesDrawn_same; reflexivity.
Qed.

Lemma step_gatesDrawn (e : Event) (w : World) :
  gatesDrawn w -> gatesDrawn (step e w).
Proof.
  intros Hd. apply step_cases; [exact Hd| | |].
  - intros page. now apply startPlaying_gatesDrawn.
  - intros now rnd page later. apply gameLoop_gatesDrawn.
    revert Hd. apply gatesDrawn_same; reflexivity.
  - intros page. unfold onResize.
    destruct (gameState (st w)); try exact Hd;
      revert Hd; apply gatesDrawn_same; reflexivity.
Qed.

Lemma step_tuning (e : Event) (w : World) :
  tuning (st w) = tuning initialState ->
  tuning (st (step e w)) = tuning initialState.
Proof.
  intros Ht. destruct (step_constants e w) as [Hstep _]. congruence.
Qed.

(** X10: in every world the page can be in, each gate in play is drawn as
    the simulation has it: both segments at the gate's position and
    [pipeWidth] wide, the bottom one starting at [bottomY], and the top
    one [topHeight] high whenever [topHeight] is not negative; the gap
    between the segments is [pipeGap] for every gate, at every moment;
    and [pipeGap] and [pipeWidth] are 170 and 68 throughout. *)
Theorem gates_always_drawn_in_place
  (page : Page) (stored : Stored) (es : list Event) :
  Forall (gateDrawn (pipeGap (st (reached page stored es)))
            (pipeWidth (st (reached page stored es))))
    (pipes (st (reached page stored es)))
  /\ pipeGap (st (reached page stored es)) = 170
  /\ pipeWidth (st (reached page stored es)) = 68.
Proof.
  split.
  - apply (reached_invariant gatesDrawn); [|apply step_gatesDrawn].
    intros page0 stored0. unfold gatesDrawn, init.
    rewrite st_updateScoreBoard, st_setOverlay, resetGameState_st.
    constructor.
  - assert (Ht : tuning (st (reached page stored es))
                 = tuning initialState).
    { apply (reached_invariant
               (fun w => tuning (st w) = tuning initialState));
        [|apply step_tuning].
      intros page0 stored0. unfold init.
      rewrite st_updateScoreBoard, st_setOverlay, resetGameState_st.
      reflexivity. }
    apply tuning_gap_width in Ht. exact Ht.
Qed.

(** ** Gates that leave have been counted *)

(** After the scoring loop every gate is flagged or still has its
    trailing edge at or ahead of the bird's front. *)
Lemma forEachPipe_counted (moveBy birdFront : Q) (ps : list Pipe.t) :
  forall w,
    Forall (fun pipe' =>
              Pipe.passed pipe' = true
              \/ birdFront <= Pipe.x pipe' + pipeWidth (st w))
      (fst (forEachPipe moveBy birdFront ps w)).
Proof.
  induction ps as [|pipe rest IH]; intros w; cbn [forEachPipe].
  - constructor.
  - pose proof (advancePipe_st moveBy birdFront pipe w) as Hst.
    apply sameButScores_pipeWidth in Hst.
    forEach_cons advancePipe_scoring IH.
    rewrite Hst in IH. constructor; [|exact IH].
    destruct Hhd as (Hflag & Hx & _). rewrite Hflag, Hx.
    unfold passesNow.
    destruct (Pipe.passed pipe); [now left|]. cbn [orb negb andb].
    destruct (Js.gt birdFront _) eqn:E; [now left|].
    right. now apply gt_false.
Qed.

Lemma unscored_filter_passed (f : Pipe.t -> bool) (ps : list Pipe.t) :
  Forall (fun pipe => f pipe = false -> Pipe.passed pipe = true) ps ->
  unscored (filter f ps) == unscored ps.
Proof.
  induction 1 as [|pipe rest Hp _ IH]; cbn [filter unscored];
    [reflexivity|].
  destruct (f pipe); cbn [unscored]; [now rewrite IH|].
  rewrite (Hp eq_refl), IH. ring.
Qed.

(** X11: While the bird's front is to the right of the eviction margin, a
    gate that [updatePipes] evicts has always been scored: the call
    moves gates from unflagged to counted and loses none, so the score
    and the unflagged gates in play add up to the same number before and
    after. *)
Theorem evicted_gates_were_scored
  (deltaSec : Q) (page : Page) (w : World) :
  -10 < birdX (st w) + birdWidth (getSizes page) ->
  (forall pipe,
      In pipe (advancedPipes deltaSec page w) ->
      ~ In pipe (pipes (st (updatePipes deltaSec page w))) ->
      Pipe.passed pipe = true)
  /\ score (st (updatePipes deltaSec page w))
     + unscored (pipes (st (updatePipes deltaSec page w)))
     == score (st w) + unscored (pipes (st w)).
Proof.
  intros Hfront.
  pose proof (forEachPipe_counted (pipeSpeed (st w) * 60 * deltaSec)
                (birdX (st w) + birdWidth (getSizes page))
                (pipes (st w)) w) as Hcounted.
  fold (advancedPipes deltaSec page w) in Hcounted.
  assert (Hgone : Forall (fun pipe => visible (st w) pipe = false ->
                                      Pipe.passed pipe = true)
                    (advancedPipes deltaSec page w)).
  { eapply Forall_impl; [|exact Hcounted]. cbv beta.
    intros pipe [Hp|Hahead] Hinv; [exact Hp|].
    unfold visible in Hinv. apply gt_false in Hinv. lra. }
  split.
  - intros pipe Hin Hout. rewrite Forall_forall in Hgone.
    apply (Hgone pipe Hin).
    destruct (visible (st w) pipe) eqn:Ev; [|reflexivity].
    exfalso. apply Hout. rewrite updatePipes_pipes.
    apply filter_In. split; [exact Hin|exact Ev].
  - rewrite updatePipes_pipes.
    fold (advancedPipes deltaSec page w).
    rewrite (unscored_filter_passed _ _ Hgone).
    destruct (updatePipes_counters deltaSec page w) as [Hs _].
    cbv zeta in Hs. rewrite Hs.
    apply forEachPipe_tally.
Qed.

(** An instance: of a flagged gate that leaves and an unflagged one that
    stays, score 1 and one unflagged gate before make score 1 and one
    unflagged gate after. *)
Lemma evicted_gates_were_scored_witness :
  let w := onState (set_score 1)
             (playingWith [gateAt (-71.8) true 0; gateAt 200 false 1]) in
  score (st (updatePipes 0.05 demoPage w))
  + unscored (pipes (st (updatePipes 0.05 demoPage w))) == 2.
Proof.
  cbv zeta.
  destruct (evicted_gates_were_scored 0.05 demoPage
              (onState (set_score 1)
                 (playingWith [gateAt (-71.8) true 0;
                               gateAt 200 false 1])))
    as [_ Hsum].
  - vm_compute. reflexivity.
  - rewrite Hsum. reflexivity.
Defined.

(** ** The first frame of a session *)

Lemma frameStep_first (now : Q) (w : World) :
  lastFrameTime (st w) == 0 -> frameStep now w == 0.
Proof.
  intros Hzero. unfold frameStep.
  apply not_true in Hzero. rewrite Hzero.
  unfold deltaSecOf. cbn [lastFrameTime set_lastFrameTime].
  rewrite Q.min_l.
  - unfold Qdiv. ring.
  - apply Qle_shift_div_r; [reflexivity|]. lra.
Qed.

(** The state a restart leaves the timers, the pipes and the velocity
    in. *)
Lemma startPlaying_restart_fields (page : Page) (w : World) :
  gameState (st w) <> playing ->
  gameState (st (startPlaying page w)) = playing
  /\ lastFrameTime (st (startPlaying page w)) = 0
  /\ lastPipeTime (st (startPlaying page w)) = 0
  /\ pipes (st (startPlaying page w)) = []
  /\ birdVelocity (st (startPlaying page w)) = jumpStrength (st w)
  /\ tuning (st (startPlaying page w)) = tuning (st w)
  /\ birdX (st (startPlaying page w)) = birdX (st w).
Proof.
  intros Hidle.
  destruct (startPlaying_restart_st page w Hidle) as [id Hst].
  rewrite Hst, resetGameState_st. repeat split.
Qed.

(** The pipes after the spawn and the pipe pass of a frame that finds no
    gate and owes one: the new gate, advanced, if the filter keeps
    it. *)
Lemma afterPipes_first (now rnd : Q) (page : Page) (w : World) :
  pipes (st w) = [] -> spawnDue now (st w) = true ->
  exists pipe',
    Pipe.x pipe'
    = gameWidth (getSizes page) - pipeSpeed (st w) * 60 * frameStep now w
    /\ pipes (st (afterPipes now rnd page w))
       = filter (visible (st w)) [pipe'].
Proof.
  intros Hnone Hdue. unfold afterPipes.
  change (spawnDue now (st (afterPhysics now w)))
    with (spawnDue now (st w)).
  rewrite Hdue.
  assert (H5 : pipes (st (afterPhysics now w)) = []) by exact Hnone.
  assert (Hs5 : pipeSpeed (st (afterPhysics now w)) = pipeSpeed (st w))
    by reflexivity.
  assert (Hw5 : pipeWidth (st (afterPhysics now w)) = pipeWidth (st w))
    by reflexivity.
  revert H5 Hs5 Hw5. generalize (afterPhysics now w). intros w5 H5 Hs5 Hw5.
  rewrite updatePipes_pipes.
  pose proof (forEachPipe_positions
                (pipeSpeed (st (createPipe now rnd page w5)) * 60
                 * frameStep now w)
                (birdX (st (createPipe now rnd page w5))
                 + birdWidth (getSizes page))
                (pipes (st (createPipe now rnd page w5)))
                (createPipe now rnd page w5)) as Hpos.
  rewrite createPipe_pipes, H5 in Hpos. cbn [app map] in Hpos.
  rewrite createPipe_pipes, H5. cbn [app].
  destruct (newPipe_fields rnd page w5) as (Hx & _).
  rewrite Hx in Hpos.
  change (pipeSpeed (st (createPipe now rnd page w5)))
    with (pipeSpeed (st w5)) in *.
  rewrite Hs5 in *.
  destruct (fst (forEachPipe _ _ [newPipe rnd page w5] _))
    as [|pipe' [|extra rest]]; try discriminate Hpos.
  injection Hpos as Hx'. exists pipe'. split; [exact Hx'|].
  apply filter_ext. intros p. unfold visible.
  change (pipeWidth (st (createPipe now rnd page w5)))
    with (pipeWidth (st w5)).
  now rewrite Hw5.
Qed.

(** X12: The first frame after a start or restart, whatever its time stamp:
    it integrates a step of 0, so the bird keeps the jump velocity and
    stays where the restart put it; it creates the session's first gate
    and stamps the spawn time; and the gate, if it is in play after the
    frame, stands at the right edge of the field. *)
Theorem first_frame_of_session
  (now rnd : Q) (page page' : Page) (w : World) :
  gameState (st w) <> playing ->
  let w1 := startPlaying page w in
  let w2 := gameLoop now rnd page' w1 in
  frameStep now w1 == 0
  /\ birdVelocity (st w2) == jumpStrength (st w)
  /\ birdY (st w2) == birdY (st w1)
  /\ created w2 = S (S (created w))
  /\ lastPipeTime (st w2) = now
  /\ (List.length (pipes (st w2)) <= 1)%nat
  /\ Forall (fun pipe => Pipe.x pipe == gameWidth (getSizes page'))
       (pipes (st w2)).
Proof.
  intros Hidle. cbv zeta.
  destruct (startPlaying_restart_fields page w Hidle)
    as (Hplay & Hlft & Hlpt & Hnone & Hv & _).
  pose proof (startPlaying_created page w) as Hcreated.
  revert Hplay Hlft Hlpt Hnone Hv Hcreated.
  generalize (startPlaying page w).
  intros w1 Hplay Hlft Hlpt Hnone Hv Hcreated.
  assert (Hstep : frameStep now w1 == 0)
    by (apply frameStep_first; rewrite Hlft; reflexivity).
  assert (Hdue : spawnDue now (st w1) = true)
    by (unfold spawnDue; rewrite Hlpt; reflexivity).
  destruct (frame_step_facts now rnd page' w1 Hplay)
    as (_ & _ & _ & Hvel & Hy).
  destruct (gameLoop_spawn now rnd page' w1 Hplay) as (Hc & Hl & _).
  rewrite Hdue in Hc, Hl.
  destruct (afterPipes_first now rnd page' w1 Hnone Hdue)
    as (pipe' & Hx & Hps).
  rewrite (gameLoop_pipes now rnd page' w1 Hplay), Hps.
  split; [exact Hstep|]. split.
  { rewrite Hvel, Hstep, Hv. ring. }
  split.
  { rewrite Hy, Hstep. ring. }
  split; [now rewrite Hc, Hcreated|]. split; [exact Hl|].
  cbn [filter]. destruct (visible (st w1) pipe'); cbn [List.length].
  - split; [lia|]. constructor; [|constructor].
    rewrite Hx, Hstep. ring.
  - split; [lia|constructor].
Qed.

(** An instance: a click on the start screen, then a frame stamped
    123456 ms. *)
Lemma first_frame_of_session_witness :
  let w2 := gameLoop 123456 0.5 demoPage
              (startPlaying demoPage demoWorld) in
  birdVelocity (st w2) == -8.5 /\ lastPipeTime (st w2) = 123456
  /\ created w2 = 2%nat.
Proof.
  cbv zeta.
  destruct (first_frame_of_session 123456 0.5 demoPage demoPage demoWorld)
    as (_ & Hv & _ & Hc & Hl & _); [discriminate|].
  split; [rewrite Hv; reflexivity|]. split; [exact Hl|exact Hc].
Defined.

(** ** How far a frame moves things *)

Lemma forEachPipe_moved (moveBy birdFront : Q) (ps : list Pipe.t) :
  forall w,
    Forall2 (fun pipe pipe' =>
               laterGate pipe pipe'
               /\ Pipe.x pipe' = Pipe.x pipe - moveBy)
      ps (fst (forEachPipe moveBy birdFront ps w)).
Proof.
  induction ps as [|pipe rest IH]; intros w; cbn [forEachPipe].
  - constructor.
  - forEach_cons advancePipe_scoring IH.
    constructor; [|exact IH].
    destruct Hhd as (Hflag & Hx & Ht & Hb & _).
    repeat split; try assumption.
    intros Hp. rewrite Hflag, Hp. reflexivity.
Qed.

Lemma frameStep_le (now : Q) (w : World) : frameStep now w <= 0.05.
Proof. apply Q.le_min_r. Qed.

(** X13: However late a frame comes, it moves no gate to the right and none
    further left than [pipeSpeed * 60 * 0.05], and it raises the bird's
    velocity by no more than [gravity * 60 * 0.05]; the time stamp only
    has to be no earlier than the last one.  Every gate in play after
    the frame is a gate that was in play, or the gate the frame created
    at the right edge. *)
Theorem frame_motion_bounded
  (now rnd : Q) (page : Page) (w : World) :
  gameState (st w) = playing ->
  lastFrameTime (st w) <= now ->
  0 <= pipeSpeed (st w) -> 0 <= gravity (st w) ->
  (forall pipe',
      In pipe' (pipes (st (gameLoop now rnd page w))) ->
      exists pipe,
        (In pipe (pipes (st w))
         \/ Pipe.x pipe = gameWidth (getSizes page)
            /\ elId (Pipe.topEl pipe) = created w)
        /\ laterGate pipe pipe'
        /\ Pipe.x pipe - pipeSpeed (st w) * 60 * 0.05 <= Pipe.x pipe'
        /\ Pipe.x pipe' <= Pipe.x pipe)
  /\ birdVelocity (st w) <= birdVelocity (st (gameLoop now rnd page w))
  /\ birdVelocity (st (gameLoop now rnd page w))
     <= birdVelocity (st w) + gravity (st w) * 60 * 0.05.
Proof.
  intros Hplay Htime Hspeed Hgravity.
  pose proof (frameStep_nonneg now w Htime) as Hd0.
  pose proof (frameStep_le now w) as Hd1.
  destruct (frame_step_facts now rnd page w Hplay)
    as (_ & _ & _ & Hvel & _).
  split; [|rewrite Hvel; split; nra].
  rewrite (gameLoop_pipes now rnd page w Hplay).
  unfold afterPipes.
  change (spawnDue now (st (afterPhysics now w)))
    with (spawnDue now (st w)).
  assert (H5 : pipes (st (afterPhysics now w)) = pipes (st w))
    by reflexivity.
  assert (Hs5 : pipeSpeed (st (afterPhysics now w)) = pipeSpeed (st w))
    by reflexivity.
  assert (Hc5 : created (afterPhysics now w) = created w) by reflexivity.
  revert H5 Hs5 Hc5. generalize (afterPhysics now w).
  intros w5 H5 Hs5 Hc5.
  set (w6 := if spawnDue now (st w) then _ else _).
  assert (H6 : pipeSpeed (st w6) = pipeSpeed (st w)
               /\ forall pipe,
                    In pipe (pipes (st w6)) ->
                    In pipe (pipes (st w))
                    \/ Pipe.x pipe = gameWidth (getSizes page)
                       /\ elId (Pipe.topEl pipe) = created w).
  { subst w6. destruct (spawnDue now (st w)).
    - split; [exact Hs5|]. intros pipe Hin.
      rewrite createPipe_pipes, H5 in Hin. apply in_app_or in Hin.
      destruct Hin as [Hin|[Hnew|[]]]; [now left|]. right. subst pipe.
      destruct (newPipe_fields rnd page w5)
        as (Hx & _ & _ & _ & _ & _ & _ & Htop & _).
      now rewrite Hx, Htop, Hc5.
    - split; [exact Hs5|]. intros pipe Hin. left. now rewrite <- H5. }
  destruct H6 as [Hs6 Hfrom]. clearbody w6.
  intros pipe' Hin. rewrite updatePipes_pipes in Hin.
  apply filter_In in Hin. destruct Hin as [Hin _].
  destruct (Forall2_In_r _ _ _
              (forEachPipe_moved (pipeSpeed (st w6) * 60 * frameStep now w)
                 (birdX (st w6) + birdWidth (getSizes page))
                 (pipes (st w6)) w6) pipe' Hin)
    as (pipe & Hpipe & Hlater & Hx).
  exists pipe. split; [now apply Hfrom|]. split; [exact Hlater|].
  rewrite Hx, Hs6. split; nra.
Qed.

(** An instance: a frame three seconds late moves the gate at 200 to
    192.8. *)
Lemma frame_motion_bounded_witness :
  let w := onState (set_lastPipeTime 1000)
             (onState (set_lastFrameTime 1000)
                (playingWith [gateAt 200 false 0])) in
  Forall (fun pipe' => 192.8 <= Pipe.x pipe' /\ Pipe.x pipe' <= 400)
    (pipes (st (gameLoop 4000 0.5 demoPage w))).
Proof.
  cbv zeta.
  destruct (frame_motion_bounded 4000 0.5 demoPage
              (onState (set_lastPipeTime 1000)
                 (onState (set_lastFrameTime 1000)
                    (playingWith [gateAt 200 false 0]))))
    as (Hgates & _);
    [reflexivity|vm_compute; discriminate|vm_compute; discriminate
    |vm_compute; discriminate|].
  apply Forall_forall. intros pipe' Hin.
  destruct (Hgates pipe' Hin) as (pipe & Hfrom & _ & Hlo & Hhi).
  assert (Hx : 200 <= Pipe.x pipe /\ Pipe.x pipe <= 400).
  { destruct Hfrom as [[Hp|[]]|[Hp _]].
    - subst pipe. cbn. lra.
    - rewrite Hp. vm_compute. split; discriminate. }
  change (pipeSpeed _) with 2.4 in Hlo. lra.
Defined.

(** ** The score as a count *)

Lemma wholeScore_same (w w' : World) :
  score (st w') = score (st w) -> wholeScore w -> wholeScore w'.
Proof. unfold wholeScore. intros Hs. now rewrite Hs. Qed.

Lemma forEachPipe_whole (moveBy birdFront : Q) (ps : list Pipe.t) :
  forall w,
    wholeScore w -> wholeScore (snd (forEachPipe moveBy birdFront ps w)).
Proof.
  induction ps as [|pipe rest IH]; intros w Hw; cbn [forEachPipe].
  - exact Hw.
  - assert (Hhd : wholeScore (snd (advancePipe moveBy birdFront pipe w))).
    { destruct (advancePipe_scoring moveBy birdFront pipe w)
        as (_ & _ & _ & _ & Hno & Hyes).
      cbv zeta in *.
      destruct (passesNow moveBy birdFront (st w) pipe).
      - destruct (Hyes eq_refl) as [Hs _]. destruct Hw as [n Hn].
        exists (S n). rewrite Hs, Hn, Nat2Z.inj_succ, <- Z.add_1_r.
        rewrite inject_Z_plus. reflexivity.
      - now rewrite (Hno eq_refl). }
    destruct (advancePipe moveBy birdFront pipe w) as [pipe' w1].
    specialize (IH w1 Hhd).
    destruct (forEachPipe moveBy birdFront rest w1) as [rest' w2].
    exact IH.
Qed.

Lemma gameLoop_whole (now rnd : Q) (page : Page) (w : World) :
  wholeScore w -> wholeScore (gameLoop now rnd page w).
Proof.
  intros Hw.
  destruct (gameState (st w)) eqn:Egs;
    try (rewrite gameLoop_idle by congruence; exact Hw).
  assert (Hmid : wholeScore (afterPipes now rnd page w)).
  { unfold afterPipes.
    set (w6 := if spawnDue now (st (afterPhysics now w)) then _ else _).
    assert (H6 : wholeScore w6).
    { subst w6. destruct (spawnDue now (st (afterPhysics now w)));
        exact Hw. }
    clearbody w6.
    destruct (updatePipes_counters (frameStep now w) page w6) as [Hs _].
    cbv zeta in Hs.
    apply (wholeScore_same _ _ Hs). now apply forEachPipe_whole. }
  rewrite (gameLoop_playing now rnd page w Egs). cbv zeta.
  destruct (hasCollision page (afterPipes now rnd page w));
    revert Hmid; generalize (afterPipes now rnd page w); intros w7.
  - apply wholeScore_same. now rewrite endGame_st.
  - apply wholeScore_same. reflexivity.
Qed.

Lemma step_whole (e : Event) (w : World) :
  wholeScore w -> wholeScore (step e w).
Proof.
  intros Hw. apply step_cases; [exact Hw| | |].
  - intros page. destruct (gameState (st w)) eqn:Egs;
      try (destruct (startPlaying_restart_st page w) as [id Hst];
           [congruence|];
           exists 0%nat; rewrite Hst, resetGameState_st; reflexivity).
    unfold startPlaying. rewrite Egs. exact Hw.
  - intros now rnd page later. now apply gameLoop_whole.
  - intros page. unfold onResize. destruct (gameState (st w)); exact Hw.
Qed.

(** X14: in every world the page can be in, the score is a whole number, zero
    or more, whatever number the storage gave for the high score. *)
Theorem score_always_whole
  (page : Page) (stored : Stored) (es : list Event) :
  exists n : nat,
    score (st (reached page stored es)) == inject_Z (Z.of_nat n).
Proof.
  apply (reached_invariant wholeScore); [|apply step_whole].
  intros page0 stored0. exists 0%nat. unfold init.
  rewrite st_updateScoreBoard, st_setOverlay, resetGameState_st.
  reflexivity.
Qed.
